(** * strawberry/permission.py: field permissions

    A shallow embedding of [BasePermission] and [PermissionExtension].

    Python objects that the module mutates ([_schema_directive] of a
    permission, the [cached_property] of an extension, the directive list
    of a field, [return_empty_list]) are modelled by explicit state; calls
    to user code ([has_permission], [on_unauthorized], [next_]) and the
    suspension points of the asynchronous resolver are recorded in a trace,
    so that "is invoked", "is awaited" and "is never invoked" are
    statements about that trace. *)

From Stdlib Require Import ZArith Lia.
From stdpp Require Import gmap strings list fin_maps.

#[local] Set Warnings "-register-all".

(** ** Python values *)

(** Plain data: what an error's [extensions] dictionary, the context and
    the keyword arguments hold, and what a resolver finally produces. *)
Inductive pyobj : Type :=
| ONone
| OBool (b : bool)
| OInt (n : Z)
| OStr (s : string)
| OList (xs : list pyobj).

(** Truth value of plain data, as [bool(x)] computes it. *)
Definition pyobj_truthy (o : pyobj) : bool :=
  match o with
  | ONone => false
  | OBool b => b
  | OInt n => negb (n =? 0)%Z
  | OStr s => negb (String.eqb s EmptyString)
  | OList xs => match xs with [] => false | _ :: _ => true end
  end.

(** [bool(d)] for an attribute typed [Optional[Dict[str, Any]]]: [None] and
    the empty dictionary are false. *)
Definition dict_truthy (d : option (gmap string pyobj)) : bool :=
  match d with
  | None => false
  | Some m => negb (bool_decide (m = ∅))
  end.

(** ** Schema directives and fields *)

Inductive Location : Type := FIELD_DEFINITION.

(** An instance of the local class [AutoDirective]; [dir_id] is the
    identity of the instance, the other fields are the arguments given to
    [StrawberrySchemaDirective]. The class defines neither [__eq__] nor
    [__bool__], so [==] is identity and every instance is true. *)
Record directive : Type := {
  dir_id : positive;
  python_name : string;
  graphql_name : string;
  locations : list Location;
  dir_fields : list string
}.

Definition directive_is (a b : directive) : bool := (dir_id a =? dir_id b)%positive.

Definition directive_truthy (d : directive) : bool := true.

(** [x in xs] on a list of directive objects. *)
Definition directive_in (d : directive) (ds : list directive) : bool :=
  existsb (directive_is d) ds.

(** The type wrappers of strawberry.types.base that [apply] tests with
    [isinstance]; every other type is a [StrawberryNamed]. *)
Inductive StrawberryType : Type :=
| StrawberryOptional (of_type : StrawberryType)
| StrawberryList (of_type : StrawberryType)
| StrawberryNamed (name : string).

Record StrawberryField : Type := {
  field_name : string;
  field_type : StrawberryType;
  directives : list directive
}.

(** ** Errors *)

(** An instance of a [GraphQLError] class. [extensions] may be [None]. *)
Record GraphQLError : Type := {
  err_class : string;
  err_message : string;
  extensions : option (gmap string pyobj)
}.

(** An error class: its name and the extensions its constructor installs
    when called with the message alone. *)
Record ErrorClass : Type := {
  ec_name : string;
  ec_extensions : string -> option (gmap string pyobj)
}.

Definition instantiate (c : ErrorClass) (msg : string) : GraphQLError :=
  {| err_class := ec_name c; err_message := msg; extensions := ec_extensions c msg |}.

(** [graphql.GraphQLError.__init__] stores [extensions or {}]. *)
Definition StrawberryGraphQLError : ErrorClass :=
  {| ec_name := "StrawberryGraphQLError"; ec_extensions := fun _ => Some ∅ |}.

Inductive exn : Type :=
| GraphQLErr (e : GraphQLError)
| PermissionFailSilentlyRequiresOptionalError (field : StrawberryField)
| TypeError (msg : string)
| UserException (name : string).

Inductive outcome (A : Type) : Type :=
| Return (a : A)
| Raise (e : exn).
Arguments Return {A} a.
Arguments Raise {A} e.

(** ** Run-time values of the resolver chain *)

(** A value is plain data, an awaitable (a coroutine or future, with what
    awaiting it produces), or an asynchronous generator object. *)
Inductive value : Type :=
| Plain (o : pyobj)
| Awaitable (r : outcome value)
| AsyncGen (id : positive).

(** Coroutine, future and generator objects are all true. *)
Definition truthy (v : value) : bool :=
  match v with
  | Plain o => pyobj_truthy o
  | Awaitable _ => true
  | AsyncGen _ => true
  end.

Definition isawaitable (v : value) : bool :=
  match v with Awaitable _ => true | _ => false end.

Definition isasyncgen (v : value) : bool :=
  match v with AsyncGen _ => true | _ => false end.

Definition PyNone : value := Plain ONone.
Definition PyEmptyList : value := Plain (OList []).

(** ** State, trace and the effect monad *)

Inductive event : Type :=
| EvHasPermission (p : positive)   (* permission.has_permission(...) is called *)
| EvOnUnauthorized (p : positive)  (* permission.on_unauthorized() is called *)
| EvNext                           (* next_(source, info, **kwargs) is called *)
| EvAwait (v : value)              (* an awaitable is awaited *)
| EvNewDirective (d : positive).   (* AutoDirective() is constructed *)

(** [slots] holds the instance attribute [_schema_directive] of every
    permission that has one, by the identity of the permission; a
    permission without an entry reads the class attribute, [None]. *)
Record state : Type := {
  slots : gmap positive directive;
  next_object : positive;
  trace : list event
}.

Definition initial_state : state :=
  {| slots := ∅; next_object := 1%positive; trace := [] |}.

Definition M (A : Type) : Type := state -> outcome A * state.

Definition ret {A} (a : A) : M A := fun st => (Return a, st).

Definition raise {A} (e : exn) : M A := fun st => (Raise e, st).

Definition bind {A B} (m : M A) (k : A -> M B) : M B :=
  fun st =>
    match m st with
    | (Return a, st') => k a st'
    | (Raise e, st') => (Raise e, st')
    end.

Declare Scope py_scope.
Delimit Scope py_scope with py.
Notation "x <- m ;; k" := (bind m (fun x => k))
  (at level 100, m at next level, right associativity) : py_scope.
Notation "m ;;; k" := (bind m (fun _ => k))
  (at level 100, right associativity) : py_scope.
Open Scope py_scope.

Definition lift {A} (r : outcome A) : M A := fun st => (r, st).

Definition add_event (e : event) (st : state) : state :=
  {| slots := slots st; next_object := next_object st; trace := trace st ++ [e] |}.

Definition log (e : event) : M unit := fun st => (Return tt, add_event e st).

Definition get_slot (p : positive) : M (option directive) :=
  fun st => (Return (slots st !! p), st).

Definition set_slot (p : positive) (d : directive) : M unit :=
  fun st =>
    (Return tt,
     {| slots := <[p := d]> (slots st); next_object := next_object st; trace := trace st |}).

(** Allocation of a new object: its identity differs from every earlier one. *)
Definition new_object : M positive :=
  fun st =>
    (Return (next_object st),
     {| slots := slots st; next_object := Pos.succ (next_object st); trace := trace st |}).

Definition await_type_error : exn :=
  TypeError "object can't be used in 'await' expression".

(** [await v]: an awaitable is run to its outcome; anything else cannot be
    used in an await expression. *)
Definition await (v : value) : M value :=
  match v with
  | Awaitable r => log (EvAwait v) ;;; lift r
  | _ => raise await_type_error
  end.

(** strawberry.utils.await_maybe *)
Definition await_maybe (v : value) : M value :=
  if isawaitable v then await v else ret v.

(** ** BasePermission *)

Record Info : Type := {
  context : gmap string pyobj;
  info_field_name : string
}.

(** How a permission class declares [has_permission]: with [def] or with
    [async def]. The body is the decision the check makes from its
    arguments: a value (by contract a bool, or an awaitable of one) or an
    exception. *)
Inductive check_fn : Type :=
| Def (body : value -> Info -> gmap string pyobj -> outcome value)
| AsyncDef (body : value -> Info -> gmap string pyobj -> outcome value).

Record BasePermission : Type := {
  perm_id : positive;                          (* identity of the instance *)
  class_name : string;                         (* self.__class__.__name__ *)
  message : option string;
  error_extensions : option (gmap string pyobj);
  error_class : ErrorClass;
  has_permission_def : check_fn;
  (* [None]: the class inherits BasePermission.on_unauthorized;
     [Some r]: it overrides it with a method that ends in [r]. *)
  on_unauthorized_override : option (outcome value)
}.

Definition iscoroutinefunction (f : check_fn) : bool :=
  match f with Def _ => false | AsyncDef _ => true end.

(** Calling a function runs its body; calling a coroutine function only
    builds the coroutine object, whose body runs when it is awaited. *)
Definition call (f : check_fn) (source : value) (info : Info)
    (kwargs : gmap string pyobj) : outcome value :=
  match f with
  | Def body => body source info kwargs
  | AsyncDef body => Return (Awaitable (body source info kwargs))
  end.

(** [permission.has_permission(source, info, **kwargs)] *)
Definition has_permission (self : BasePermission) (source : value) (info : Info)
    (kwargs : gmap string pyobj) : M value :=
  log (EvHasPermission (perm_id self)) ;;;
  lift (call (has_permission_def self) source info kwargs).

(** [self.message or str()]: an unset and an empty message give the empty string. *)
Definition message_or_empty (m : option string) : string :=
  match m with
  | Some s => if String.eqb s EmptyString then EmptyString else s
  | None => EmptyString
  end.

(** [d.update(other)]: the keys of [other] are written over [d]. *)
Definition dict_update (d other : gmap string pyobj) : gmap string pyobj := other ∪ d.

(** The body of [BasePermission.on_unauthorized]. *)
Definition on_unauthorized (self : BasePermission) : M value :=
  let error := instantiate (error_class self) (message_or_empty (message self)) in
  let error :=
    if dict_truthy (error_extensions self) then
      let error :=
        if negb (dict_truthy (extensions error)) then
          {| err_class := err_class error; err_message := err_message error;
             extensions := Some ∅ |}
        else error in
      {| err_class := err_class error; err_message := err_message error;
         extensions :=
           Some (dict_update (default ∅ (extensions error))
                             (default ∅ (error_extensions self))) |}
    else error in
  raise (GraphQLErr error).

(** [permission.on_unauthorized()], through the class of [permission]. *)
Definition invoke_on_unauthorized (permission : BasePermission) : M value :=
  log (EvOnUnauthorized (perm_id permission)) ;;;
  match on_unauthorized_override permission with
  | None => on_unauthorized permission
  | Some r => lift r
  end.

Definition AutoDirective (id : positive) (name : string) : directive :=
  {| dir_id := id; python_name := name; graphql_name := name;
     locations := [FIELD_DEFINITION]; dir_fields := [] |}.

(** The property [BasePermission.schema_directive]. *)
Definition schema_directive (self : BasePermission) : M directive :=
  cached <- get_slot (perm_id self) ;;
  match cached with
  | Some d => ret d
  | None =>
      id <- new_object ;;
      log (EvNewDirective id) ;;;
      let d := AutoDirective id (class_name self) in
      set_slot (perm_id self) d ;;;
      ret d
  end.

(** ** PermissionExtension *)

Record PermissionExtension : Type := {
  permissions : list BasePermission;
  fail_silently : bool;
  return_empty_list : bool;
  use_directives : bool;
  (* the entry that [cached_property] writes into the instance *)
  supports_sync_cache : option bool
}.

(** [PermissionExtension.__init__] *)
Definition init (permissions : list BasePermission) (use_directives fail_silently : bool)
  : PermissionExtension :=
  {| permissions := permissions;
     fail_silently := fail_silently;
     return_empty_list := false;
     use_directives := use_directives;
     supports_sync_cache := None |}.

Definition set_return_empty_list (self : PermissionExtension) (b : bool) : PermissionExtension :=
  {| permissions := permissions self;
     fail_silently := fail_silently self;
     return_empty_list := b;
     use_directives := use_directives self;
     supports_sync_cache := supports_sync_cache self |}.

Definition set_directives (field : StrawberryField) (ds : list directive) : StrawberryField :=
  {| field_name := field_name field; field_type := field_type field; directives := ds |}.

(** The list comprehension of [apply]: the property is read once for the
    condition and once more for the element. *)
Fixpoint permission_directives (perms : list BasePermission) : M (list directive) :=
  match perms with
  | [] => ret []
  | perm :: rest =>
      c <- schema_directive perm ;;
      if directive_truthy c then
        d <- schema_directive perm ;;
        ds <- permission_directives rest ;;
        ret (d :: ds)
      else permission_directives rest
  end.

(** The loop of [apply] over the collected directives, on the field's list. *)
Fixpoint append_deduped (perm_directives : list directive) (field_directives : list directive)
  : list directive :=
  match perm_directives with
  | [] => field_directives
  | perm_directive :: rest =>
      if directive_in perm_directive field_directives
      then append_deduped rest field_directives
      else append_deduped rest (field_directives ++ [perm_directive])
  end.

(** [apply] changes the extension and the field in place: both are
    returned next to the outcome, also when it is an exception. *)
Definition apply (self : PermissionExtension) (field : StrawberryField)
  : state -> outcome unit * PermissionExtension * StrawberryField * state :=
  fun st =>
    let '(r, field, st) :=
      if use_directives self then
        match permission_directives (permissions self) st with
        | (Return ds, st') =>
            (Return tt, set_directives field (append_deduped ds (directives field)), st')
        | (Raise e, st') => (Raise e, field, st')
        end
      else (Return tt, field, st) in
    match r with
    | Raise e => (Raise e, self, field, st)
    | Return _ =>
        if fail_silently self then
          match field_type field with
          | StrawberryOptional of_type =>
              match of_type with
              | StrawberryList _ => (Return tt, set_return_empty_list self true, field, st)
              | _ => (Return tt, self, field, st)
              end
          | StrawberryList _ => (Return tt, set_return_empty_list self true, field, st)
          | _ => (Raise (PermissionFailSilentlyRequiresOptionalError field), self, field, st)
          end
        else (Return tt, self, field, st)
    end.

Definition _on_unauthorized (self : PermissionExtension) (permission : BasePermission)
  : M value :=
  if fail_silently self then
    ret (if return_empty_list self then PyEmptyList else PyNone)
  else invoke_on_unauthorized permission.

(** A resolver of the chain: what [next_(source, info, **kwargs)] gives. *)
Definition resolver : Type := value -> Info -> gmap string pyobj -> outcome value.

Definition call_next (next_ : resolver) (source : value) (info : Info)
    (kwargs : gmap string pyobj) : M value :=
  log EvNext ;;; lift (next_ source info kwargs).

Section Resolve.
Variable self : PermissionExtension.
Variable source : value.
Variable info : Info.
Variable kwargs : gmap string pyobj.

(** The [for] loop of [resolve] from some permission on, and what
    follows the loop. *)
Fixpoint resolve_from (next_ : resolver) (perms : list BasePermission) : M value :=
  match perms with
  | [] => call_next next_ source info kwargs
  | permission :: rest =>
      r <- has_permission permission source info kwargs ;;
      if negb (truthy r) then _on_unauthorized self permission
      else resolve_from next_ rest
  end.

Fixpoint resolve_async_from (next_ : resolver) (perms : list BasePermission) : M value :=
  match perms with
  | [] =>
      next <- call_next next_ source info kwargs ;;
      if isasyncgen next then ret next else await next
  | permission :: rest =>
      r <- has_permission permission source info kwargs ;;
      has_perm <- await_maybe r ;;
      if negb (truthy has_perm) then _on_unauthorized self permission
      else resolve_async_from next_ rest
  end.
End Resolve.

Definition resolve (self : PermissionExtension) (next_ : resolver) (source : value)
    (info : Info) (kwargs : gmap string pyobj) : M value :=
  resolve_from self source info kwargs next_ (permissions self).

Definition resolve_async (self : PermissionExtension) (next_ : resolver) (source : value)
    (info : Info) (kwargs : gmap string pyobj) : M value :=
  resolve_async_from self source info kwargs next_ (permissions self).

(** The body of the property [supports_sync]. *)
Definition supports_sync_body (self : PermissionExtension) : bool :=
  let async_permissions :=
    omap (fun permission =>
            if iscoroutinefunction (has_permission_def permission) then Some true else None)
         (permissions self) in
  Nat.eqb (length async_permissions) 0.

(** Reading [self.supports_sync]: [cached_property] runs the body on the
    first read and stores the result in the instance. *)
Definition supports_sync (self : PermissionExtension) : bool * PermissionExtension :=
  match supports_sync_cache self with
  | Some b => (b, self)
  | None =>
      let b := supports_sync_body self in
      (b, {| permissions := permissions self;
             fail_silently := fail_silently self;
             return_empty_list := return_empty_list self;
             use_directives := use_directives self;
             supports_sync_cache := Some b |})
  end.

(** ** What a resolution observes *)

(** The two resolvers of the extension. *)
Inductive mode : Type := Sync | Async.

Definition run_resolve (m : mode) : PermissionExtension -> resolver -> value -> Info ->
    gmap string pyobj -> M value :=
  match m with Sync => resolve | Async => resolve_async end.

(** What the loop tests for one permission: in [resolve] the value that
    [has_permission] returns, in [resolve_async] that value passed through
    [await_maybe]. *)
Definition verdict (m : mode) (p : BasePermission) (source : value) (info : Info)
    (kwargs : gmap string pyobj) : outcome value :=
  match m, call (has_permission_def p) source info kwargs with
  | Async, Return (Awaitable r) => r
  | _, r => r
  end.

Definition grants (m : mode) (source : value) (info : Info) (kwargs : gmap string pyobj)
    (p : BasePermission) : Prop :=
  exists v, verdict m p source info kwargs = Return v /\ truthy v = true.

Definition denies (m : mode) (source : value) (info : Info) (kwargs : gmap string pyobj)
    (p : BasePermission) : Prop :=
  exists v, verdict m p source info kwargs = Return v /\ truthy v = false.

(** The first denying permission of [perms] is at index [k]. *)
Definition first_denying (m : mode) (source : value) (info : Info)
    (kwargs : gmap string pyobj) (perms : list BasePermission) (k : nat) : Prop :=
  Forall (grants m source info kwargs) (take k perms) /\
  exists p, perms !! k = Some p /\ denies m source info kwargs p.

(** The permissions whose check was called, in the order of the calls. *)
Definition checks_of (evs : list event) : list positive :=
  omap (fun e => match e with EvHasPermission p => Some p | _ => None end) evs.

Definition is_on_unauthorized (e : event) : bool :=
  match e with EvOnUnauthorized _ => true | _ => false end.

Definition is_await (e : event) : bool :=
  match e with EvAwait _ => true | _ => false end.

Definition sentinel (self : PermissionExtension) : value :=
  if return_empty_list self then PyEmptyList else PyNone.

Definition add_events (evs : list event) (st : state) : state :=
  {| slots := slots st; next_object := next_object st; trace := trace st ++ evs |}.

(** One turn of the loop up to the test: the call, and in the asynchronous
    resolver the [await_maybe] around it. *)
Definition check (m : mode) (p : BasePermission) (source : value) (info : Info)
    (kwargs : gmap string pyobj) : M value :=
  match m with
  | Sync => has_permission p source info kwargs
  | Async => r <- has_permission p source info kwargs ;; await_maybe r
  end.

Definition check_events (m : mode) (p : BasePermission) (source : value) (info : Info)
    (kwargs : gmap string pyobj) : list event :=
  match m, call (has_permission_def p) source info kwargs with
  | Async, Return (Awaitable r) => [EvHasPermission (perm_id p); EvAwait (Awaitable r)]
  | _, _ => [EvHasPermission (perm_id p)]
  end.

Definition run_from (m : mode) (self : PermissionExtension) (source : value) (info : Info)
    (kwargs : gmap string pyobj) : resolver -> list BasePermission -> M value :=
  match m with
  | Sync => resolve_from self source info kwargs
  | Async => resolve_async_from self source info kwargs
  end.

(** The events of the checks of a whole list of permissions. *)
Definition all_check_events (m : mode) (source : value) (info : Info)
    (kwargs : gmap string pyobj) (perms : list BasePermission) : list event :=
  flat_map (fun p => check_events m p source info kwargs) perms.

(** ** Directive bookkeeping *)

(** Reading the property on each permission of a list, in turn. *)
Fixpoint access_all (ps : list BasePermission) : M unit :=
  match ps with
  | [] => ret tt
  | p :: rest => schema_directive p ;;; access_all rest
  end.

(** The directive objects constructed, in order of construction. *)
Definition new_directives (evs : list event) : list positive :=
  omap (fun e => match e with EvNewDirective d => Some d | _ => None end) evs.

(** States the module can reach: the identities in use are below the
    next one to be given out, and no directive object is stored on two
    permission instances. *)
Definition state_ok (st : state) : Prop :=
  forall p d, slots st !! p = Some d ->
    (dir_id d < next_object st)%positive /\
    forall q d', slots st !! q = Some d' -> dir_id d = dir_id d' -> p = q.

(** The directives of [ds] that are not among [seen], each at its first
    occurrence. *)
Fixpoint first_seen (seen ds : list directive) : list directive :=
  match ds with
  | [] => []
  | d :: rest =>
      if directive_in d seen then first_seen seen rest
      else d :: first_seen (seen ++ [d]) rest
  end.

(** The shapes of a field type that [apply] tells apart. *)
Definition is_optional (t : StrawberryType) : bool :=
  match t with StrawberryOptional _ => true | _ => false end.

Definition is_list (t : StrawberryType) : bool :=
  match t with StrawberryList _ => true | _ => false end.

Definition is_optional_of_list (t : StrawberryType) : bool :=
  match t with StrawberryOptional (StrawberryList _) => true | _ => false end.

(** Assignment to [self.permissions]. *)
Definition set_permissions (self : PermissionExtension) (perms : list BasePermission)
  : PermissionExtension :=
  {| permissions := perms;
     fail_silently := fail_silently self;
     return_empty_list := return_empty_list self;
     use_directives := use_directives self;
     supports_sync_cache := supports_sync_cache self |}.

(** [n] reads of [self.supports_sync], one after the other. *)
Fixpoint read_supports_sync (n : nat) (self : PermissionExtension)
  : list bool * PermissionExtension :=
  match n with
  | O => ([], self)
  | S n' =>
      let '(b, self) := supports_sync self in
      let '(bs, self) := read_supports_sync n' self in
      (b :: bs, self)
  end.

(** ** Sample permissions *)

Definition info0 : Info := {| context := ∅; info_field_name := "secret" |}.

Definition IsAuthenticated : BasePermission :=
  {| perm_id := 1;
     class_name := "IsAuthenticated";
     message := Some "User is not authenticated";
     error_extensions := None;
     error_class := StrawberryGraphQLError;
     has_permission_def := Def (fun _ _ _ => Return (Plain (OBool true)));
     on_unauthorized_override := None |}.

Definition IsAdmin : BasePermission :=
  {| perm_id := 2;
     class_name := "IsAdmin";
     message := Some "no";
     error_extensions := Some {[ "code" := OStr "FORBIDDEN" ]};
     error_class := StrawberryGraphQLError;
     has_permission_def := Def (fun _ _ _ => Return (Plain (OBool false)));
     on_unauthorized_override := None |}.

Definition IsOwnerAsync : BasePermission :=
  {| perm_id := 3;
     class_name := "IsOwnerAsync";
     message := None;
     error_extensions := None;
     error_class := StrawberryGraphQLError;
     has_permission_def := AsyncDef (fun _ _ _ => Return (Plain (OBool false)));
     on_unauthorized_override := None |}.

Definition IsMemberAsync : BasePermission :=
  {| perm_id := 4;
     class_name := "IsMemberAsync";
     message := None;
     error_extensions := None;
     error_class := StrawberryGraphQLError;
     has_permission_def := AsyncDef (fun _ _ _ => Return (Plain (OBool true)));
     on_unauthorized_override := None |}.

Definition async_resolver : resolver :=
  fun _ _ _ => Return (Awaitable (Return (Plain (OStr "value")))).

Definition plain_resolver : resolver := fun _ _ _ => Return (Plain (OInt 42)).

Definition secret_field (t : StrawberryType) : StrawberryField :=
  {| field_name := "secret"; field_type := t; directives := [] |}.

(** ** Further notions for the properties of the module *)

(** The check of [p] hands back a value that is not an awaitable. *)
Definition returns_no_awaitable (source : value) (info : Info)
    (kwargs : gmap string pyobj) (p : BasePermission) : Prop :=
  forall r, call (has_permission_def p) source info kwargs <> Return (Awaitable r).

Definition NotImplementedError : exn := UserException "NotImplementedError".

(** The body of the abstract [BasePermission.has_permission], reached by a
    subclass that defers to it. *)
Definition BasePermission_has_permission : check_fn :=
  Def (fun _ _ _ => Raise NotImplementedError).

Definition is_new_directive (e : event) : bool :=
  match e with EvNewDirective _ => true | _ => false end.

(** A permission class that only defers to the abstract check. *)
Definition Unfinished : BasePermission :=
  {| perm_id := 5;
     class_name := "Unfinished";
     message := None;
     error_extensions := None;
     error_class := StrawberryGraphQLError;
     has_permission_def := BasePermission_has_permission;
     on_unauthorized_override := None |}.

(** An error class whose constructor installs extensions of its own. *)
Definition TaggedError : ErrorClass :=
  {| ec_name := "TaggedError";
     ec_extensions := fun _ => Some {[ "code" := OStr "GENERIC"; "origin" := OStr "gateway" ]} |}.

(** The second half of [apply], from [if self.fail_silently:] on, for the
    field as the first half leaves it. *)
Definition silent_policy (self : PermissionExtension) (field : StrawberryField)
  : outcome unit * PermissionExtension :=
  if fail_silently self then
    match field_type field with
    | StrawberryOptional of_type =>
        match of_type with
        | StrawberryList _ => (Return tt, set_return_empty_list self true)
        | _ => (Return tt, self)
        end
    | StrawberryList _ => (Return tt, set_return_empty_list self true)
    | _ => (Raise (PermissionFailSilentlyRequiresOptionalError field), self)
    end
  else (Return tt, self).

(** ** Stepping lemmas *)

Lemma bind_Return {A B} (m : M A) (k : A -> M B) st a st' :
  m st = (Return a, st') -> bind m k st = k a st'.
Proof. intros H. unfold bind. by rewrite H. Qed.

Lemma bind_Raise {A B} (m : M A) (k : A -> M B) st e st' :
  m st = (Raise e, st') -> bind m k st = (Raise e, st').
Proof. intros H. unfold bind. by rewrite H. Qed.

Lemma has_permission_run p source info kwargs st :
  has_permission p source info kwargs st =
  (call (has_permission_def p) source info kwargs,
   add_event (EvHasPermission (perm_id p)) st).
Proof. reflexivity. Qed.

Lemma call_next_run next_ source info kwargs st :
  call_next next_ source info kwargs st =
  (next_ source info kwargs, add_event EvNext st).
Proof. reflexivity. Qed.

Lemma await_run r st :
  await (Awaitable r) st = (r, add_event (EvAwait (Awaitable r)) st).
Proof. reflexivity. Qed.

Lemma trace_add_event e st : trace (add_event e st) = trace st ++ [e].
Proof. reflexivity. Qed.

Lemma checks_of_app evs1 evs2 : checks_of (evs1 ++ evs2) = checks_of evs1 ++ checks_of evs2.
Proof. unfold checks_of. apply omap_app. Qed.

Lemma bind_assoc {A B C} (m : M A) (f : A -> M B) (g : B -> M C) st :
  bind (bind m f) g st = bind m (fun x => bind (f x) g) st.
Proof. unfold bind. destruct (m st) as [[a|e] st']; reflexivity. Qed.

Lemma add_events_nil st : add_events [] st = st.
Proof. destruct st; unfold add_events; cbn. by rewrite app_nil_r. Qed.

Lemma add_events_app evs1 evs2 st :
  add_events evs2 (add_events evs1 st) = add_events (evs1 ++ evs2) st.
Proof. unfold add_events; cbn. by rewrite app_assoc. Qed.

Lemma add_event_events e st : add_event e st = add_events [e] st.
Proof. reflexivity. Qed.

Lemma check_run m p source info kwargs st :
  check m p source info kwargs st =
  (verdict m p source info kwargs, add_events (check_events m p source info kwargs) st).
Proof.
  destruct m; cbn [check].
  - rewrite has_permission_run. unfold verdict, check_events.
    by destruct (call _ _ _ _).
  - unfold bind. rewrite has_permission_run. unfold verdict, check_events.
    destruct (call _ _ _ _) as [[o|r|g]|e]; try reflexivity.
    cbn [await_maybe isawaitable]. rewrite await_run.
    by rewrite !add_event_events, add_events_app.
Qed.

Lemma run_from_cons m self source info kwargs next_ p rest st :
  run_from m self source info kwargs next_ (p :: rest) st =
  bind (check m p source info kwargs)
       (fun v => if negb (truthy v) then _on_unauthorized self p
                 else run_from m self source info kwargs next_ rest) st.
Proof.
  destruct m; cbn [run_from resolve_from resolve_async_from check]; [done|].
  by rewrite bind_assoc.
Qed.

Lemma run_resolve_from m self next_ source info kwargs :
  run_resolve m self next_ source info kwargs =
  run_from m self source info kwargs next_ (permissions self).
Proof. by destruct m. Qed.

Lemma checks_of_check_events m p source info kwargs :
  checks_of (check_events m p source info kwargs) = [perm_id p].
Proof.
  unfold check_events. destruct m; [done|].
  by destruct (call _ _ _ _) as [[o|r|g]|e].
Qed.

Lemma check_events_clean m p source info kwargs e :
  e ∈ check_events m p source info kwargs -> e <> EvNext /\ is_on_unauthorized e = false.
Proof.
  unfold check_events. destruct m.
  - intros ->%list_elem_of_singleton; done.
  - destruct (call _ _ _ _) as [[o|r|g]|e'];
      rewrite ?elem_of_cons, ?list_elem_of_singleton;
      intros H; destruct_or?; subst; try done.
    all: by apply not_elem_of_nil in H.
Qed.

(** What [_on_unauthorized] adds to the trace. *)
Lemma _on_unauthorized_events self p st :
  exists evs,
    snd (_on_unauthorized self p st) = add_events evs st /\
    (evs = [] \/ evs = [EvOnUnauthorized (perm_id p)]) /\
    (fail_silently self = true ->
     evs = [] /\ fst (_on_unauthorized self p st) = Return (sentinel self)).
Proof.
  unfold _on_unauthorized. destruct (fail_silently self) eqn:Hfs.
  - exists []. rewrite add_events_nil. cbn. auto.
  - exists [EvOnUnauthorized (perm_id p)]. split_and!; [|auto|done].
    unfold invoke_on_unauthorized, bind, log.
    destruct (on_unauthorized_override p); reflexivity.
Qed.

(** ** The loop of the resolvers *)

(** A resolution in which the first denial is at index [k]: the checks
    called, the absence of [next_], and the value under fail_silently. *)
Lemma run_from_denied m self source info kwargs next_ perms :
  forall k st,
    first_denying m source info kwargs perms k ->
    exists evs,
      snd (run_from m self source info kwargs next_ perms st) = add_events evs st /\
      checks_of evs = (perm_id <$> take (S k) perms) /\
      (EvNext ∉ evs) /\
      (fail_silently self = true ->
       fst (run_from m self source info kwargs next_ perms st) = Return (sentinel self)).
Proof.
  induction perms as [|p rest IH]; intros k st [Hpre (q & Hq & v & Hv & Hfalse)].
  - by rewrite lookup_nil in Hq.
  - rewrite run_from_cons. unfold bind. rewrite check_run.
    destruct k as [|k].
    + cbn in Hq. injection Hq as ->. rewrite Hv, Hfalse. cbn [negb].
      destruct (_on_unauthorized_events self q
                  (add_events (check_events m q source info kwargs) st))
        as (evs & Hsnd & Hevs & Hsilent).
      exists (check_events m q source info kwargs ++ evs).
      rewrite Hsnd, add_events_app. split_and!; [done|..].
      * rewrite checks_of_app, checks_of_check_events.
        by destruct Hevs as [-> | ->].
      * rewrite elem_of_app. intros [H | H].
        -- by apply check_events_clean in H as [? _].
        -- destruct Hevs as [-> | ->]; [by apply not_elem_of_nil in H|].
           by apply list_elem_of_singleton in H.
      * intros Hfs. by apply Hsilent.
    + cbn in Hq, Hpre. apply Forall_cons in Hpre as [(w & Hw & Htrue) Hpre].
      rewrite Hw, Htrue. cbn [negb].
      destruct (IH k (add_events (check_events m p source info kwargs) st))
        as (evs & Hsnd & Hchecks & Hnext & Hsilent).
      { split; [done|]. exists q. split; [done|]. by exists v. }
      exists (check_events m p source info kwargs ++ evs).
      rewrite Hsnd, add_events_app. split_and!; [done|..].
      * rewrite checks_of_app, checks_of_check_events, Hchecks. reflexivity.
      * rewrite elem_of_app. intros [H | H]; [|done].
        by apply check_events_clean in H as [? _].
      * done.
Qed.

(** Under fail_silently no resolution calls [on_unauthorized]. *)
Lemma run_from_silent m self source info kwargs next_ perms :
  fail_silently self = true ->
  forall st,
    exists evs,
      snd (run_from m self source info kwargs next_ perms st) = add_events evs st /\
      Forall (fun e => is_on_unauthorized e = false) evs.
Proof.
  intros Hfs. induction perms as [|p rest IH]; intros st.
  - destruct m; cbn [run_from resolve_from resolve_async_from].
    + exists [EvNext]. rewrite call_next_run. split; [done|]. by repeat constructor.
    + unfold bind. rewrite call_next_run.
      destruct (next_ source info kwargs) as [[o|r|g]|e]; cbn.
      * exists [EvNext]. split; [done|]. by repeat constructor.
      * exists [EvNext; EvAwait (Awaitable r)]. split; [|by repeat constructor].
        unfold bind, log, lift. cbn. by rewrite !add_event_events, add_events_app.
      * exists [EvNext]. split; [done|]. by repeat constructor.
      * exists [EvNext]. split; [done|]. by repeat constructor.
  - rewrite run_from_cons. unfold bind. rewrite check_run.
    assert (Hclean : Forall (fun e => is_on_unauthorized e = false)
                            (check_events m p source info kwargs)).
    { apply Forall_forall. intros e He. by apply check_events_clean in He as [_ ?]. }
    destruct (verdict m p source info kwargs) as [v|e].
    + destruct (negb (truthy v)).
      * destruct (_on_unauthorized_events self p
                    (add_events (check_events m p source info kwargs) st))
          as (evs & Hsnd & _ & Hsilent).
        destruct (Hsilent Hfs) as [-> _].
        exists (check_events m p source info kwargs ++ []).
        rewrite Hsnd, add_events_app. split; [done|]. by rewrite app_nil_r.
      * destruct (IH (add_events (check_events m p source info kwargs) st))
          as (evs & Hsnd & Hevs).
        exists (check_events m p source info kwargs ++ evs).
        rewrite Hsnd, add_events_app. split; [done|]. by apply Forall_app.
    + exists (check_events m p source info kwargs). by split.
Qed.

(** ** Short circuit on the first denial *)

(** C1. When the first denying permission of the list is at index [k],
    [resolve] and [resolve_async] call [has_permission] on the permissions
    at indices 0..k, once each and in declared order, call it on no later
    permission, and never call [next_]. *)
Theorem checks_stop_at_first_denial m self next_ source info kwargs k st :
  first_denying m source info kwargs (permissions self) k ->
  exists evs,
    trace (snd (run_resolve m self next_ source info kwargs st)) = trace st ++ evs /\
    checks_of evs = (perm_id <$> take (S k) (permissions self)) /\
    EvNext ∉ evs.
Proof.
  intros Hk. rewrite run_resolve_from.
  destruct (run_from_denied m self source info kwargs next_ _ k st Hk)
    as (evs & Hsnd & Hchecks & Hnext & _).
  exists evs. rewrite Hsnd. done.
Qed.

Lemma first_denying_sample m :
  first_denying m PyNone info0 ∅ [IsAuthenticated; IsAdmin; IsOwnerAsync] 1.
Proof.
  split.
  - apply Forall_cons. split; [|by apply Forall_nil].
    exists (Plain (OBool true)). destruct m; split; reflexivity.
  - exists IsAdmin. split; [reflexivity|].
    exists (Plain (OBool false)). destruct m; split; reflexivity.
Qed.

Lemma checks_stop_at_first_denial_witness :
  exists evs,
    trace (snd (run_resolve Async (init [IsAuthenticated; IsAdmin; IsOwnerAsync] true false)
                  plain_resolver PyNone info0 ∅ initial_state)) = [] ++ evs /\
    checks_of evs = [1; 2]%positive /\
    EvNext ∉ evs.
Proof.
  apply (checks_stop_at_first_denial Async
           (init [IsAuthenticated; IsAdmin; IsOwnerAsync] true false)
           plain_resolver PyNone info0 ∅ 1 initial_state).
  apply first_denying_sample.
Defined.

(** ** Silent denial *)

(** C3. With fail_silently set, a resolution (synchronous or
    asynchronous) in which a permission denies returns the value of the
    empty-value policy, [None] when [return_empty_list] is false and the
    empty list when it is true, and raises nothing. *)
Theorem silent_denial_returns_sentinel m self next_ source info kwargs k st :
  fail_silently self = true ->
  first_denying m source info kwargs (permissions self) k ->
  fst (run_resolve m self next_ source info kwargs st) =
  Return (if return_empty_list self then Plain (OList []) else Plain ONone).
Proof.
  intros Hfs Hk. rewrite run_resolve_from.
  destruct (run_from_denied m self source info kwargs next_ _ k st Hk)
    as (evs & _ & _ & _ & Hsilent).
  by rewrite (Hsilent Hfs).
Qed.

Lemma silent_denial_returns_sentinel_witness :
  fst (run_resolve Sync
         (set_return_empty_list (init [IsAuthenticated; IsAdmin; IsOwnerAsync] true true) true)
         plain_resolver PyNone info0 ∅ initial_state) =
  Return (Plain (OList [])).
Proof.
  apply (silent_denial_returns_sentinel Sync
           (set_return_empty_list (init [IsAuthenticated; IsAdmin; IsOwnerAsync] true true) true)
           plain_resolver PyNone info0 ∅ 1 initial_state).
  - reflexivity.
  - apply first_denying_sample.
Defined.

(** C10. With fail_silently set, [_on_unauthorized] returns the sentinel
    without touching the denying permission: the value is the same for
    every permission, also one that overrides [on_unauthorized], nothing
    is added to the trace, and no resolution ever calls a permission's
    [on_unauthorized]. *)
Theorem silent_denial_skips_on_unauthorized self :
  fail_silently self = true ->
  (forall permission st,
     _on_unauthorized self permission st =
     (Return (if return_empty_list self then PyEmptyList else PyNone), st)) /\
  (forall m next_ source info kwargs st,
     exists evs,
       trace (snd (run_resolve m self next_ source info kwargs st)) = trace st ++ evs /\
       forall p, EvOnUnauthorized p ∉ evs).
Proof.
  intros Hfs. split.
  - intros permission st. unfold _on_unauthorized. by rewrite Hfs.
  - intros m next_ source info kwargs st. rewrite run_resolve_from.
    destruct (run_from_silent m self source info kwargs next_ (permissions self) Hfs st)
      as (evs & Hsnd & Hevs).
    exists evs. rewrite Hsnd. split; [done|].
    intros p Hp. rewrite Forall_forall in Hevs. by apply Hevs in Hp.
Qed.

Lemma silent_denial_skips_on_unauthorized_witness :
  (forall permission st,
     _on_unauthorized (init [IsAdmin] true true) permission st = (Return PyNone, st)) /\
  (forall m next_ source info kwargs st,
     exists evs,
       trace (snd (run_resolve m (init [IsAdmin] true true) next_ source info kwargs st))
       = trace st ++ evs /\
       forall p, EvOnUnauthorized p ∉ evs).
Proof.
  apply (silent_denial_skips_on_unauthorized (init [IsAdmin] true true)).
  reflexivity.
Defined.

(** ** A coroutine function in the synchronous resolver *)

(** C9. In [resolve], a permission whose [has_permission] is a coroutine
    function yields a coroutine object, which is true and is not awaited:
    whatever its body would decide, the loop goes on with the permissions
    after it (and with [next_] when there is none), having added only the
    calls of the checks to the trace. *)
Theorem resolve_takes_coroutine_for_granted self next_ source info kwargs
    before p body after st :
  permissions self = before ++ p :: after ->
  Forall (grants Sync source info kwargs) before ->
  has_permission_def p = AsyncDef body ->
  resolve self next_ source info kwargs st =
  resolve_from self source info kwargs next_ after
    (add_events (EvHasPermission <$> (perm_id <$> (before ++ [p]))) st).
Proof.
  intros Hperms Hbefore Hp. unfold resolve. rewrite Hperms. clear Hperms.
  revert st. induction Hbefore as [|q before (v & Hv & Htrue) _ IH]; intros st.
  - cbn [app resolve_from]. unfold bind. rewrite has_permission_run, Hp. cbn.
    by rewrite add_event_events.
  - cbn [app resolve_from]. unfold bind. rewrite has_permission_run.
    cbn in Hv. rewrite Hv, Htrue. cbn [negb].
    rewrite IH, add_event_events, add_events_app. reflexivity.
Qed.

Lemma resolve_takes_coroutine_for_granted_witness :
  resolve (init [IsAuthenticated; IsOwnerAsync] true false) plain_resolver PyNone info0 ∅
    initial_state =
  (Return (Plain (OInt 42)),
   add_events [EvHasPermission 1; EvHasPermission 3; EvNext] initial_state).
Proof.
  rewrite (resolve_takes_coroutine_for_granted
             (init [IsAuthenticated; IsOwnerAsync] true false) plain_resolver PyNone info0 ∅
             [IsAuthenticated] IsOwnerAsync
             (fun _ _ _ => Return (Plain (OBool false))) [] initial_state).
  - reflexivity.
  - reflexivity.
  - apply Forall_cons. split; [|by apply Forall_nil].
    exists (Plain (OBool true)). split; reflexivity.
  - reflexivity.
Defined.

(** ** After the checks *)

Lemma run_from_granted m self source info kwargs next_ perms :
  Forall (grants m source info kwargs) perms ->
  forall st,
    run_from m self source info kwargs next_ perms st =
    run_from m self source info kwargs next_ []
      (add_events (all_check_events m source info kwargs perms) st).
Proof.
  induction 1 as [|p rest (v & Hv & Htrue) _ IH]; intros st.
  - by rewrite add_events_nil.
  - rewrite run_from_cons. unfold bind. rewrite check_run, Hv, Htrue. cbn [negb].
    rewrite IH, add_events_app. reflexivity.
Qed.

(** C4, as the code has it. After all permissions pass, [resolve_async]
    calls [next_]. An asynchronous generator is returned as it is, without
    being awaited; any other result is awaited: an awaitable gives its
    resolved value (or its exception), and a plain value, which the type of
    an asynchronous resolver excludes, is not returned but makes the
    [await] raise a TypeError. *)
Theorem resolve_async_after_checks self next_ source info kwargs st :
  Forall (grants Async source info kwargs) (permissions self) ->
  let checks := all_check_events Async source info kwargs (permissions self) in
  resolve_async self next_ source info kwargs st =
  match next_ source info kwargs with
  | Return (AsyncGen g) => (Return (AsyncGen g), add_events (checks ++ [EvNext]) st)
  | Return (Awaitable r) => (r, add_events (checks ++ [EvNext; EvAwait (Awaitable r)]) st)
  | Return (Plain o) => (Raise await_type_error, add_events (checks ++ [EvNext]) st)
  | Raise e => (Raise e, add_events (checks ++ [EvNext]) st)
  end.
Proof.
  intros Hall checks.
  change (resolve_async self next_ source info kwargs st)
    with (run_from Async self source info kwargs next_ (permissions self) st).
  rewrite (run_from_granted Async self source info kwargs next_ _ Hall st).
  cbn [run_from resolve_async_from]. unfold bind. rewrite call_next_run.
  fold checks. rewrite add_event_events, add_events_app.
  destruct (next_ source info kwargs) as [[o|r|g]|e]; cbn; try reflexivity.
  unfold bind, log, lift. by rewrite add_event_events, add_events_app, <- app_assoc.
Qed.

Lemma resolve_async_after_checks_witness :
  resolve_async (init [IsAuthenticated] true false)
    (fun _ _ _ => Return (AsyncGen 7)) PyNone info0 ∅ initial_state =
  (Return (AsyncGen 7), add_events [EvHasPermission 1; EvNext] initial_state).
Proof.
  apply (resolve_async_after_checks (init [IsAuthenticated] true false)
           (fun _ _ _ => Return (AsyncGen 7)) PyNone info0 ∅ initial_state).
  apply Forall_cons. split; [|by apply Forall_nil].
  exists (Plain (OBool true)). split; reflexivity.
Defined.

(** C4, as stated, fails: with every permission passing and [next_]
    returning the plain value 42, [resolve_async] does not return 42; the
    [await] on it raises a TypeError. *)
Lemma resolve_async_plain_value_not_returned :
  Forall (grants Async PyNone info0 ∅) (permissions (init [IsAuthenticated] true false)) /\
  plain_resolver PyNone info0 ∅ = Return (Plain (OInt 42)) /\
  fst (resolve_async (init [IsAuthenticated] true false) plain_resolver PyNone info0 ∅
         initial_state) = Raise await_type_error /\
  fst (resolve_async (init [IsAuthenticated] true false) plain_resolver PyNone info0 ∅
         initial_state) <> Return (Plain (OInt 42)).
Proof.
  split_and!; try reflexivity; [|discriminate].
  apply Forall_cons. split; [|by apply Forall_nil].
  exists (Plain (OBool true)). split; reflexivity.
Qed.

(** ** The default on_unauthorized *)

Lemma message_or_empty_default m : message_or_empty m = default EmptyString m.
Proof.
  destruct m as [s|]; [|done]. cbn.
  destruct (String.eqb_spec s EmptyString); congruence.
Qed.

Lemma dict_truthy_false d : dict_truthy d = false -> default ∅ d = ∅.
Proof.
  destruct d as [m|]; [|done]. cbn. intros H.
  apply negb_false_iff, bool_decide_eq_true in H. done.
Qed.

Lemma lookup_updated (d other : gmap string pyobj) (key : string) :
  default ∅ (Some (dict_update d other)) !! key =
  match other !! key with
  | Some v => Some v
  | None => d !! key
  end.
Proof.
  cbn. unfold dict_update. rewrite lookup_union.
  by destruct (other !! key), (d !! key).
Qed.

(** C5. The default [on_unauthorized] builds an instance of the
    permission's error class with its message (the empty string when the
    message is unset), writes [error_extensions] over the error's
    extensions, so that a key of [error_extensions] has the permission's
    value and every other key keeps what the constructor gave it, and
    raises the error: it never returns. *)
Theorem on_unauthorized_raises_merged_error self st :
  exists error,
    on_unauthorized self st = (Raise (GraphQLErr error), st) /\
    err_class error = ec_name (error_class self) /\
    err_message error = default EmptyString (message self) /\
    forall key : string,
      default ∅ (extensions error) !! key =
      match default ∅ (error_extensions self) !! key with
      | Some v => Some v
      | None =>
          default ∅ (extensions (instantiate (error_class self)
                                   (default EmptyString (message self)))) !! key
      end.
Proof.
  unfold on_unauthorized. rewrite message_or_empty_default.
  set (error := instantiate _ _).
  destruct (dict_truthy (error_extensions self)) eqn:Hext.
  - destruct (dict_truthy (extensions error)) eqn:Hfalsy; cbn [negb];
      (eexists; split_and!; [reflexivity..|]); intros key; cbn [extensions];
      rewrite lookup_updated; [reflexivity|].
    by rewrite (dict_truthy_false _ Hfalsy).
  - exists error. split_and!; [reflexivity..|]. intros key.
    by rewrite (dict_truthy_false _ Hext), lookup_empty.
Qed.

(** ** supports_sync *)

Lemma supports_sync_body_false self :
  supports_sync_body self = false <->
  exists p, p ∈ permissions self /\ iscoroutinefunction (has_permission_def p) = true.
Proof.
  unfold supports_sync_body. induction (permissions self) as [|q rest IH].
  - cbn. split; [done|]. intros (p & Hp & _). by apply not_elem_of_nil in Hp.
  - cbn [omap list_omap].
    destruct (iscoroutinefunction (has_permission_def q)) eqn:Hq.
    + split; [|done]. intros _. exists q. split; [apply list_elem_of_here|done].
    + rewrite IH. split.
      * intros (p & Hp & Hasync). exists p. split; [by apply list_elem_of_further|done].
      * intros (p & Hp & Hasync). apply elem_of_cons in Hp as [-> | Hp]; [congruence|].
        by exists p.
Qed.

Lemma supports_sync_cached self b :
  supports_sync_cache self = Some b -> supports_sync self = (b, self).
Proof. intros H. unfold supports_sync. by rewrite H. Qed.

Lemma supports_sync_fills_cache self :
  supports_sync_cache (snd (supports_sync self)) = Some (fst (supports_sync self)).
Proof. unfold supports_sync. by destruct (supports_sync_cache self) eqn:H. Qed.

Lemma read_supports_sync_cached n self b :
  supports_sync_cache self = Some b ->
  read_supports_sync n self = (replicate n b, self).
Proof.
  intros H. induction n as [|n IH]; [done|].
  cbn [read_supports_sync]. by rewrite (supports_sync_cached _ _ H), IH.
Qed.

(** C6. On an extension as [__init__] leaves it, [supports_sync] is
    false exactly when some permission of the list has a coroutine function
    as [has_permission]; and on any extension, every read after the first
    gives the value of the first, however many reads follow and even if
    [permissions] is assigned in between. *)
Theorem supports_sync_false_iff_async_check :
  (forall perms ud fs,
     fst (supports_sync (init perms ud fs)) = false <->
     exists p, p ∈ perms /\ iscoroutinefunction (has_permission_def p) = true) /\
  (forall self n,
     fst (read_supports_sync n self) = replicate n (fst (supports_sync self))) /\
  (forall self perms,
     fst (supports_sync (set_permissions (snd (supports_sync self)) perms)) =
     fst (supports_sync self)).
Proof.
  split_and!.
  - intros perms ud fs. cbn [supports_sync init supports_sync_cache fst].
    apply (supports_sync_body_false (init perms ud fs)).
  - intros self [|n]; [done|]. cbn [read_supports_sync].
    destruct (supports_sync self) as [b self1] eqn:Hread.
    pose proof (supports_sync_fills_cache self) as Hcache. rewrite Hread in Hcache.
    cbn [fst snd] in Hcache |- *.
    by rewrite (read_supports_sync_cached n self1 b Hcache).
  - intros self perms.
    pose proof (supports_sync_fills_cache self) as Hcache.
    by rewrite (supports_sync_cached (set_permissions _ perms) _ Hcache).
Qed.

(** ** apply: the fail_silently policy *)

Lemma schema_directive_run p st :
  schema_directive p st =
  match slots st !! perm_id p with
  | Some d => (Return d, st)
  | None =>
      let d := AutoDirective (next_object st) (class_name p) in
      (Return d,
       {| slots := <[perm_id p := d]> (slots st);
          next_object := Pos.succ (next_object st);
          trace := trace st ++ [EvNewDirective (next_object st)] |})
  end.
Proof.
  unfold schema_directive, bind, get_slot. by destruct (slots st !! perm_id p).
Qed.

Lemma schema_directive_returns p st :
  exists d, fst (schema_directive p st) = Return d /\
            slots (snd (schema_directive p st)) !! perm_id p = Some d.
Proof.
  rewrite schema_directive_run. destruct (slots st !! perm_id p) as [d|] eqn:H.
  - by exists d.
  - eexists. split; [reflexivity|]. cbn. by rewrite lookup_insert_eq.
Qed.

(** A slot that is set is never written again. *)
Lemma schema_directive_keeps p st q d :
  slots st !! q = Some d -> slots (snd (schema_directive p st)) !! q = Some d.
Proof.
  intros Hq. rewrite schema_directive_run.
  destruct (slots st !! perm_id p) as [d'|] eqn:H; [done|]. cbn.
  rewrite lookup_insert_ne; [done|]. congruence.
Qed.

Lemma schema_directive_again p st d :
  slots st !! perm_id p = Some d -> schema_directive p st = (Return d, st).
Proof. intros H. by rewrite schema_directive_run, H. Qed.

Lemma permission_directives_keeps perms st q d :
  slots st !! q = Some d ->
  slots (snd (permission_directives perms st)) !! q = Some d.
Proof.
  revert st. induction perms as [|p rest IH]; intros st Hq; [done|].
  cbn [permission_directives]. unfold bind.
  destruct (schema_directive_returns p st) as (c & Hc & Hslot).
  destruct (schema_directive p st) as [r st1] eqn:Hrun. cbn in Hc, Hslot. subst r.
  cbn [directive_truthy]. rewrite (schema_directive_again p st1 c Hslot).
  assert (Hq1 : slots st1 !! q = Some d).
  { pose proof (schema_directive_keeps p st q d Hq) as H. by rewrite Hrun in H. }
  specialize (IH st1 Hq1).
  by destruct (permission_directives rest st1) as [[ds|e] st2].
Qed.

(** The comprehension never raises and yields, for each permission in
    order, the directive stored on it. *)
Lemma permission_directives_run perms st :
  exists ds,
    fst (permission_directives perms st) = Return ds /\
    Forall2 (fun p d => slots (snd (permission_directives perms st)) !! perm_id p = Some d)
            perms ds.
Proof.
  revert st. induction perms as [|p rest IH]; intros st.
  - exists []. split; [done|]. constructor.
  - cbn [permission_directives]. unfold bind.
    destruct (schema_directive_returns p st) as (c & Hc & Hslot).
    destruct (schema_directive p st) as [r st1] eqn:Hrun. cbn in Hc, Hslot. subst r.
    cbn [directive_truthy]. rewrite (schema_directive_again p st1 c Hslot).
    destruct (IH st1) as (ds & Hds & Hall).
    pose proof (permission_directives_keeps rest st1 _ _ Hslot) as Hkept.
    destruct (permission_directives rest st1) as [r st2]. cbn in Hds, Hall, Hkept.
    subst r. exists (c :: ds). split; [done|]. by constructor.
Qed.

(** C2. On an extension built with fail_silently, [apply] raises
    PermissionFailSilentlyRequiresOptionalError exactly when the type of the
    field is neither optional nor a list; otherwise it completes, with
    [return_empty_list] true for a list and for an optional of a list, and
    false for any other optional. *)
Theorem apply_fail_silently_by_field_type perms ud field st :
  let '(r, self, field', _) := apply (init perms ud true) field st in
  let t := field_type field in
  ((exists e, r = Raise e) <-> is_optional t = false /\ is_list t = false) /\
  (forall e, r = Raise e -> e = PermissionFailSilentlyRequiresOptionalError field') /\
  (r = Return tt -> return_empty_list self = is_list t || is_optional_of_list t).
Proof.
  unfold apply. cbn [init use_directives fail_silently permissions].
  set (self := init perms ud true).
  assert (Hdir : exists field1 st1,
    (if ud then
       match permission_directives perms st with
       | (Return ds, st') =>
           (Return tt, set_directives field (append_deduped ds (directives field)), st')
       | (Raise e, st') => (Raise e, field, st')
       end
     else (Return tt, field, st)) = (Return tt, field1, st1) /\
    field_type field1 = field_type field).
  { destruct ud; [|by eauto].
    destruct (permission_directives_run perms st) as (ds & Hds & _).
    destruct (permission_directives perms st) as [r st1]. cbn in Hds. subst r.
    by eauto. }
  destruct Hdir as (field1 & st1 & -> & Htype). rewrite Htype.
  destruct (field_type field) as [[| |]| |]; cbn;
    (split_and!; [split; [intros [e ?]; done | intros [? ?]; done || eauto] | intros e; congruence | done]).
Qed.

(** ** apply: the directives of the field *)

Lemma directive_in_ids d ds : directive_in d ds = true <-> dir_id d ∈ (dir_id <$> ds).
Proof.
  unfold directive_in, directive_is. rewrite existsb_exists, list_elem_of_fmap.
  split.
  - intros (x & Hx & Heq). apply Pos.eqb_eq in Heq. exists x.
    split; [done|]. by apply list_elem_of_In.
  - intros (x & Heq & Hx). exists x. split; [by apply list_elem_of_In|].
    by apply Pos.eqb_eq.
Qed.

Lemma directive_in_app d xs ys :
  directive_in d (xs ++ ys) = directive_in d xs || directive_in d ys.
Proof. apply existsb_app. Qed.

Lemma append_deduped_first_seen ds : forall fs,
  append_deduped ds fs = fs ++ first_seen fs ds.
Proof.
  induction ds as [|d rest IH]; intros fs; cbn [append_deduped first_seen].
  - by rewrite app_nil_r.
  - destruct (directive_in d fs); [apply IH|].
    by rewrite IH, <- app_assoc.
Qed.

Lemma first_seen_elem ds : forall seen d,
  d ∈ first_seen seen ds -> d ∈ ds /\ directive_in d seen = false.
Proof.
  induction ds as [|d0 rest IH]; intros seen d; cbn [first_seen].
  - intros H. by apply not_elem_of_nil in H.
  - destruct (directive_in d0 seen) eqn:Hin.
    + intros H. apply IH in H as [? ?]. split; [by apply list_elem_of_further|done].
    + intros [-> | H]%elem_of_cons; [split; [apply list_elem_of_here|done]|].
      apply IH in H as [Hrest Hnot]. split; [by apply list_elem_of_further|].
      rewrite directive_in_app in Hnot. by apply orb_false_iff in Hnot as [? _].
Qed.

Lemma first_seen_NoDup ds : forall seen, NoDup (dir_id <$> first_seen seen ds).
Proof.
  induction ds as [|d0 rest IH]; intros seen; cbn [first_seen].
  - constructor.
  - destruct (directive_in d0 seen); [apply IH|].
    rewrite fmap_cons. constructor; [|apply IH].
    intros (d & Heq & Hd)%list_elem_of_fmap.
    apply first_seen_elem in Hd as [_ Hnot].
    rewrite directive_in_app in Hnot. apply orb_false_iff in Hnot as [_ Hnot].
    cbn in Hnot. unfold directive_is in Hnot. rewrite <- Heq, Pos.eqb_refl in Hnot.
    done.
Qed.

Lemma first_seen_covers ds : forall seen d,
  d ∈ ds -> directive_in d (seen ++ first_seen seen ds) = true.
Proof.
  induction ds as [|d0 rest IH]; intros seen d Hd; [by apply not_elem_of_nil in Hd|].
  cbn [first_seen]. destruct (directive_in d0 seen) eqn:Hin.
  - apply elem_of_cons in Hd as [-> | Hd]; [|by apply IH].
    by rewrite directive_in_app, Hin.
  - replace (seen ++ d0 :: first_seen (seen ++ [d0]) rest)
      with ((seen ++ [d0]) ++ first_seen (seen ++ [d0]) rest) by by rewrite <- app_assoc.
    apply elem_of_cons in Hd as [-> | Hd]; [|by apply IH].
    rewrite !directive_in_app. cbn. unfold directive_is. rewrite Pos.eqb_refl.
    by rewrite orb_true_r.
Qed.

Lemma first_seen_sublist ds : forall seen, sublist (first_seen seen ds) ds.
Proof.
  induction ds as [|d0 rest IH]; intros seen; cbn [first_seen]; [constructor|].
  destruct (directive_in d0 seen).
  - by apply sublist_cons.
  - by apply sublist_skip.
Qed.

Lemma first_seen_keeps_NoDup seen ds :
  NoDup (dir_id <$> seen) -> NoDup (dir_id <$> (seen ++ first_seen seen ds)).
Proof.
  intros Hseen. rewrite fmap_app. apply NoDup_app. split_and!; [done| |apply first_seen_NoDup].
  intros i Hi (d & -> & Hd)%list_elem_of_fmap.
  apply first_seen_elem in Hd as [_ Hnot].
  apply directive_in_ids in Hi. congruence.
Qed.

Lemma first_seen_pair seen d1 d2 :
  directive_is d1 d2 = true -> directive_in d1 seen = false ->
  first_seen seen [d1; d2] = [d1].
Proof.
  intros Hsame Hnot. cbn [first_seen]. rewrite Hnot.
  rewrite directive_in_app. cbn. unfold directive_is in *.
  rewrite Pos.eqb_sym, Hsame. by rewrite orb_true_r.
Qed.

(** C7. With use_directives, [apply] appends to the field's list, for the
    directives of the permissions taken in declared order, exactly those
    not yet on the list, each once at its first occurrence: what is
    appended has no duplicate and nothing already on the field, every
    permission's directive is on the list afterwards, the order is that of
    the permissions, a list without duplicates stays without, and two
    permissions with the same directive on a field that has it not add a
    single entry. *)
Theorem apply_appends_directives_deduped self field st :
  use_directives self = true ->
  let '(_, _, field', st') := apply self field st in
  exists ds,
    Forall2 (fun p d => slots st' !! perm_id p = Some d) (permissions self) ds /\
    directives field' = directives field ++ first_seen (directives field) ds /\
    NoDup (dir_id <$> first_seen (directives field) ds) /\
    (forall d, d ∈ first_seen (directives field) ds ->
               d ∈ ds /\ directive_in d (directives field) = false) /\
    (forall d, d ∈ ds -> directive_in d (directives field') = true) /\
    sublist (first_seen (directives field) ds) ds /\
    (NoDup (dir_id <$> directives field) -> NoDup (dir_id <$> directives field')) /\
    (forall d1 d2, ds = [d1; d2] -> directive_is d1 d2 = true ->
                   directive_in d1 (directives field) = false ->
                   directives field' = directives field ++ [d1]).
Proof.
  intros Hud. unfold apply. rewrite Hud.
  destruct (permission_directives_run (permissions self) st) as (ds & Hds & Hall).
  destruct (permission_directives (permissions self) st) as [r st1].
  cbn in Hds, Hall. subst r.
  set (field1 := set_directives field (append_deduped ds (directives field))).
  assert (Hfield1 : directives field1 = directives field ++ first_seen (directives field) ds)
    by apply append_deduped_first_seen.
  assert (Hgoal : forall field' st',
    directives field' = directives field1 -> st' = st1 ->
    exists ds0,
      Forall2 (fun p d => slots st' !! perm_id p = Some d) (permissions self) ds0 /\
      directives field' = directives field ++ first_seen (directives field) ds0 /\
      NoDup (dir_id <$> first_seen (directives field) ds0) /\
      (forall d, d ∈ first_seen (directives field) ds0 ->
                 d ∈ ds0 /\ directive_in d (directives field) = false) /\
      (forall d, d ∈ ds0 -> directive_in d (directives field') = true) /\
      sublist (first_seen (directives field) ds0) ds0 /\
      (NoDup (dir_id <$> directives field) -> NoDup (dir_id <$> directives field')) /\
      (forall d1 d2, ds0 = [d1; d2] -> directive_is d1 d2 = true ->
                     directive_in d1 (directives field) = false ->
                     directives field' = directives field ++ [d1])).
  { intros field' st' -> ->. rewrite Hfield1. exists ds. split_and!.
    - done.
    - done.
    - apply first_seen_NoDup.
    - apply first_seen_elem.
    - intros d. apply first_seen_covers.
    - apply first_seen_sublist.
    - apply first_seen_keeps_NoDup.
    - intros d1 d2 -> Hsame Hnot. by rewrite first_seen_pair. }
  destruct (fail_silently self); [|by apply Hgoal].
  destruct (field_type field1) as [[| |]| |]; by apply Hgoal.
Qed.

Lemma apply_appends_directives_deduped_witness :
  let '(_, _, field', st') :=
    apply (init [IsAdmin; IsAdmin] true false) (secret_field (StrawberryNamed "str"))
      initial_state in
  exists ds,
    Forall2 (fun p d => slots st' !! perm_id p = Some d) [IsAdmin; IsAdmin] ds /\
    directives field' = [] ++ first_seen [] ds /\
    NoDup (dir_id <$> first_seen [] ds) /\
    (forall d, d ∈ first_seen [] ds -> d ∈ ds /\ directive_in d [] = false) /\
    (forall d, d ∈ ds -> directive_in d (directives field') = true) /\
    sublist (first_seen [] ds) ds /\
    (NoDup (dir_id <$> []) -> NoDup (dir_id <$> directives field')) /\
    (forall d1 d2, ds = [d1; d2] -> directive_is d1 d2 = true ->
                   directive_in d1 [] = false ->
                   directives field' = [] ++ [d1]).
Proof.
  apply (apply_appends_directives_deduped (init [IsAdmin; IsAdmin] true false)
           (secret_field (StrawberryNamed "str")) initial_state).
  reflexivity.
Defined.

(** ** The memoized directive of a permission *)

Lemma initial_state_ok : state_ok initial_state.
Proof. intros p d H. cbn in H. by rewrite lookup_empty in H. Qed.

Lemma schema_directive_ok p st :
  state_ok st -> state_ok (snd (schema_directive p st)).
Proof.
  intros Hok. rewrite schema_directive_run.
  destruct (slots st !! perm_id p) as [d|] eqn:Hslot; [done|].
  intros q dq. cbn. rewrite lookup_insert. case_decide as Hq.
  - intros [= <-]. cbn. split; [lia|]. intros q' d'.
    rewrite lookup_insert. case_decide; [intros _ _; congruence|].
    intros Hq' Hid. apply Hok in Hq' as [Hlt _]. cbn in Hid. lia.
  - intros Hdq. destruct (Hok q dq Hdq) as [Hlt Hinj]. split; [lia|].
    intros q' d'. rewrite lookup_insert. case_decide.
    + intros [= <-]. cbn. lia.
    + apply Hinj.
Qed.

Lemma access_all_run others : forall st,
  exists st',
    access_all others st = (Return tt, st') /\
    (state_ok st -> state_ok st') /\
    forall q d, slots st !! q = Some d -> slots st' !! q = Some d.
Proof.
  induction others as [|p rest IH]; intros st.
  - exists st. by split_and!.
  - cbn [access_all]. unfold bind.
    destruct (schema_directive_returns p st) as (d & Hd & _).
    pose proof (schema_directive_ok p st) as Hok.
    pose proof (schema_directive_keeps p st) as Hkeep.
    destruct (schema_directive p st) as [r st1]. cbn in Hd, Hok, Hkeep. subst r.
    destruct (IH st1) as (st' & Hrun & Hok' & Hkeep').
    exists st'. split_and!; [done|by auto|by auto].
Qed.

(** C8. Reading [schema_directive] on a permission constructs at most
    one directive object, and none when one is stored already; every later
    read, whatever other permissions are read in between, returns that same
    object and constructs nothing; and a different permission instance
    never gets the same object. *)
Theorem schema_directive_created_once_per_instance self st :
  state_ok st ->
  exists d evs st1,
    schema_directive self st = (Return d, st1) /\
    trace st1 = trace st ++ evs /\
    new_directives evs = match slots st !! perm_id self with Some _ => [] | None => [dir_id d] end /\
    state_ok st1 /\
    (forall others,
       exists st2,
         access_all others st1 = (Return tt, st2) /\
         schema_directive self st2 = (Return d, st2)) /\
    (forall other others,
       perm_id other <> perm_id self ->
       exists d' st2 st3,
         access_all others st1 = (Return tt, st2) /\
         schema_directive other st2 = (Return d', st3) /\
         dir_id d' <> dir_id d).
Proof.
  intros Hok.
  destruct (schema_directive_returns self st) as (d & Hd & Hslot).
  pose proof (schema_directive_ok self st Hok) as Hok1.
  assert (Hevs : exists evs,
    trace (snd (schema_directive self st)) = trace st ++ evs /\
    new_directives evs = match slots st !! perm_id self with Some _ => [] | None => [dir_id d] end).
  { rewrite schema_directive_run in Hd |- *.
    destruct (slots st !! perm_id self) as [d0|].
    - exists []. by rewrite app_nil_r.
    - cbn in Hd. injection Hd as <-. by eexists. }
  destruct Hevs as (evs & Htrace & Hnew).
  destruct (schema_directive self st) as [r st1]. cbn in Hd, Hslot, Hok1, Htrace. subst r.
  exists d, evs, st1. split_and!; [done..| |].
  - intros others. destruct (access_all_run others st1) as (st2 & Hrun & _ & Hkeep).
    exists st2. split; [done|]. apply schema_directive_again. by apply Hkeep.
  - intros other others Hne.
    destruct (access_all_run others st1) as (st2 & Hrun & Hok2 & Hkeep).
    specialize (Hok2 Hok1). pose proof (Hkeep _ _ Hslot) as Hslot2.
    destruct (schema_directive_returns other st2) as (d' & Hd' & Hslot').
    pose proof (schema_directive_ok other st2 Hok2) as Hok3.
    pose proof (schema_directive_keeps other st2 _ _ Hslot2) as Hslot3.
    destruct (schema_directive other st2) as [r st3] eqn:Hrun2.
    cbn in Hd', Hslot', Hok3, Hslot3. subst r.
    exists d', st2, st3. split_and!; [done..|].
    intros Heq. destruct (Hok3 _ _ Hslot') as [_ Hinj].
    by apply Hne, (Hinj _ _ Hslot3).
Qed.

Lemma schema_directive_created_once_per_instance_witness :
  exists d evs st1,
    schema_directive IsAdmin initial_state = (Return d, st1) /\
    trace st1 = trace initial_state ++ evs /\
    new_directives evs =
      match slots initial_state !! perm_id IsAdmin with
      | Some _ => []
      | None => [dir_id d]
      end /\
    state_ok st1 /\
    (forall others,
       exists st2,
         access_all others st1 = (Return tt, st2) /\
         schema_directive IsAdmin st2 = (Return d, st2)) /\
    (forall other others,
       perm_id other <> perm_id IsAdmin ->
       exists d' st2 st3,
         access_all others st1 = (Return tt, st2) /\
         schema_directive other st2 = (Return d', st3) /\
         dir_id d' <> dir_id d).
Proof.
  apply (schema_directive_created_once_per_instance IsAdmin initial_state).
  apply initial_state_ok.
Defined.

(** ** The scenarios of the specification *)

(** A passes and B denies with message "no": [resolve] raises B's error,
    with B's extensions, after one call of each check and none of [next_]. *)
Example scenario_denial_raises :
  resolve (init [IsAuthenticated; IsAdmin] true false) plain_resolver PyNone info0 ∅
    initial_state =
  (Raise (GraphQLErr {| err_class := "StrawberryGraphQLError"; err_message := "no";
                        extensions := Some {[ "code" := OStr "FORBIDDEN" ]} |}),
   add_events [EvHasPermission 1; EvHasPermission 2; EvOnUnauthorized 2] initial_state).
Proof. vm_compute. reflexivity. Qed.

(** The same permissions with fail_silently on an optional field. *)
Example scenario_silent_denial :
  let '(r, self, _, st) :=
    apply (init [IsAuthenticated; IsAdmin] false true)
      (secret_field (StrawberryOptional (StrawberryNamed "str"))) initial_state in
  r = Return tt /\
  resolve self plain_resolver PyNone info0 ∅ st =
  (Return PyNone, add_events [EvHasPermission 1; EvHasPermission 2] st).
Proof. split; reflexivity. Qed.

(** No permission at all: the resolver is called at once. *)
Example scenario_no_permissions :
  resolve (init [] true false) plain_resolver PyNone info0 ∅ initial_state =
  (Return (Plain (OInt 42)), add_events [EvNext] initial_state) /\
  fst (supports_sync (init [] true false)) = true.
Proof. split; reflexivity. Qed.

(** The same permission instance listed twice: one directive on the field. *)
Example scenario_same_permission_twice :
  let '(_, _, field, _) :=
    apply (init [IsAdmin; IsAdmin] true false) (secret_field (StrawberryNamed "str"))
      initial_state in
  directives field = [AutoDirective 1 "IsAdmin"].
Proof.
  unfold apply. cbn [init use_directives permissions permission_directives].
  unfold bind. rewrite (schema_directive_run IsAdmin initial_state).
  cbn [initial_state slots]. rewrite lookup_empty. cbn [next_object class_name IsAdmin].
  cbn [directive_truthy].
  rewrite !(schema_directive_again IsAdmin _ (AutoDirective 1 "IsAdmin"));
    [reflexivity | apply lookup_insert_eq..].
Qed.

(** One asynchronous permission that passes: the synchronous path is not
    offered, and [resolve_async] awaits the check and then the resolver. *)
Example scenario_async_permission :
  fst (supports_sync (init [IsMemberAsync] true false)) = false /\
  resolve_async (init [IsMemberAsync] true false) async_resolver PyNone info0 ∅
    initial_state =
  (Return (Plain (OStr "value")),
   add_events [EvHasPermission 4; EvAwait (Awaitable (Return (Plain (OBool true))));
               EvNext; EvAwait (Awaitable (Return (Plain (OStr "value"))))]
     initial_state).
Proof. split; reflexivity. Qed.

(** [apply] only ever sets [return_empty_list]: an extension instance that
    was applied to a list field keeps the flag on a later optional field. *)
Example apply_keeps_return_empty_list :
  let '(_, self, _, st) :=
    apply (init [] false true) (secret_field (StrawberryList (StrawberryNamed "str")))
      initial_state in
  let '(r, self, _, _) :=
    apply self (secret_field (StrawberryOptional (StrawberryNamed "str"))) st in
  r = Return tt /\ return_empty_list self = true.
Proof. split; reflexivity. Qed.

(** * Further properties of the module *)

(** ** Where a resolution stops *)

Lemma all_check_events_app m source info kwargs xs ys :
  all_check_events m source info kwargs (xs ++ ys) =
  all_check_events m source info kwargs xs ++ all_check_events m source info kwargs ys.
Proof. unfold all_check_events. apply flat_map_app. Qed.

Lemma all_check_events_one m source info kwargs p :
  all_check_events m source info kwargs [p] = check_events m p source info kwargs.
Proof. unfold all_check_events. cbn. apply app_nil_r. Qed.

Lemma all_check_events_no_next m source info kwargs perms :
  EvNext ∉ all_check_events m source info kwargs perms.
Proof.
  unfold all_check_events. intros H.
  apply list_elem_of_In, in_flat_map in H as (q & _ & Hin).
  by apply list_elem_of_In, check_events_clean in Hin as [Hne _].
Qed.

(** The permissions that grant are stepped over, whatever follows them. *)
Lemma run_from_app_granted m self source info kwargs next_ before rest :
  Forall (grants m source info kwargs) before ->
  forall st,
    run_from m self source info kwargs next_ (before ++ rest) st =
    run_from m self source info kwargs next_ rest
      (add_events (all_check_events m source info kwargs before) st).
Proof.
  induction 1 as [|p before (v & Hv & Htrue) _ IH]; intros st.
  - by rewrite add_events_nil.
  - cbn [app]. rewrite run_from_cons. unfold bind. rewrite check_run, Hv, Htrue.
    cbn [negb]. rewrite IH, add_events_app. reflexivity.
Qed.

Lemma run_from_denying m self source info kwargs next_ p rest st :
  denies m source info kwargs p ->
  run_from m self source info kwargs next_ (p :: rest) st =
  _on_unauthorized self p (add_events (check_events m p source info kwargs) st).
Proof.
  intros (v & Hv & Hfalse). rewrite run_from_cons. unfold bind.
  by rewrite check_run, Hv, Hfalse.
Qed.

Lemma run_from_raising m self source info kwargs next_ p rest st e :
  verdict m p source info kwargs = Raise e ->
  run_from m self source info kwargs next_ (p :: rest) st =
  (Raise e, add_events (check_events m p source info kwargs) st).
Proof. intros He. rewrite run_from_cons. unfold bind. by rewrite check_run, He. Qed.

(** A list with its first denial at [k], cut around that permission. *)
Lemma first_denying_split m source info kwargs perms k :
  first_denying m source info kwargs perms k ->
  exists p,
    perms !! k = Some p /\
    perms = take k perms ++ p :: drop (S k) perms /\
    take (S k) perms = take k perms ++ [p] /\
    Forall (grants m source info kwargs) (take k perms) /\
    denies m source info kwargs p.
Proof.
  intros [Hpre (p & Hp & Hden)]. exists p. split_and!; [done| | |done|done].
  - by rewrite take_drop_middle.
  - by apply take_S_r.
Qed.

(** The whole of a denied resolution: the checks up to the denial, then
    [_on_unauthorized] on the denying permission. *)
Lemma run_from_first_denying m self source info kwargs next_ perms k p st :
  first_denying m source info kwargs perms k ->
  perms !! k = Some p ->
  run_from m self source info kwargs next_ perms st =
  _on_unauthorized self p
    (add_events (all_check_events m source info kwargs (take (S k) perms)) st).
Proof.
  intros Hk Hp. destruct (first_denying_split _ _ _ _ _ _ Hk)
    as (q & Hq & Hsplit & Htake & Hgr & Hden).
  assert (q = p) as -> by congruence.
  rewrite Hsplit at 1. rewrite run_from_app_granted by done.
  rewrite run_from_denying by done.
  by rewrite add_events_app, Htake, all_check_events_app, all_check_events_one.
Qed.

(** X1. Without fail_silently, a resolution whose first denial is at
    index [k] is, after the checks of the permissions 0..k, exactly the
    call of [on_unauthorized] on the permission at [k]: its return value or
    its exception is the result, and no other permission's
    [on_unauthorized] is called. *)
Theorem denial_hands_over_to_on_unauthorized m self next_ source info kwargs k p st :
  fail_silently self = false ->
  first_denying m source info kwargs (permissions self) k ->
  permissions self !! k = Some p ->
  run_resolve m self next_ source info kwargs st =
  invoke_on_unauthorized p
    (add_events (all_check_events m source info kwargs (take (S k) (permissions self))) st).
Proof.
  intros Hfs Hk Hp. rewrite run_resolve_from.
  rewrite (run_from_first_denying _ _ _ _ _ _ _ k p st Hk Hp).
  unfold _on_unauthorized. by rewrite Hfs.
Qed.

Lemma denial_hands_over_to_on_unauthorized_witness :
  run_resolve Sync (init [IsAuthenticated; IsAdmin; IsOwnerAsync] true false)
    plain_resolver PyNone info0 ∅ initial_state =
  invoke_on_unauthorized IsAdmin
    (add_events
       (all_check_events Sync PyNone info0 ∅
          (take 2 (permissions (init [IsAuthenticated; IsAdmin; IsOwnerAsync] true false))))
       initial_state).
Proof.
  apply (denial_hands_over_to_on_unauthorized Sync
           (init [IsAuthenticated; IsAdmin; IsOwnerAsync] true false)
           plain_resolver PyNone info0 ∅ 1 IsAdmin initial_state).
  - reflexivity.
  - apply first_denying_sample.
  - reflexivity.
Defined.

Lemma on_unauthorized_error self st :
  exists error,
    on_unauthorized self st = (Raise (GraphQLErr error), st) /\
    err_class error = ec_name (error_class self) /\
    err_message error = default EmptyString (message self).
Proof.
  unfold on_unauthorized. rewrite message_or_empty_default.
  destruct (dict_truthy (error_extensions self));
    [destruct (negb (dict_truthy _))|]; eexists; split_and!; reflexivity.
Qed.

(** X2. Without fail_silently, when the first denying permission keeps
    the inherited [on_unauthorized], the resolution raises an error of that
    permission's error class carrying that permission's message, whatever
    the permissions after it would have decided. *)
Theorem denial_raises_error_of_first_denier m self next_ source info kwargs k p st :
  fail_silently self = false ->
  first_denying m source info kwargs (permissions self) k ->
  permissions self !! k = Some p ->
  on_unauthorized_override p = None ->
  exists error,
    fst (run_resolve m self next_ source info kwargs st) = Raise (GraphQLErr error) /\
    err_class error = ec_name (error_class p) /\
    err_message error = default EmptyString (message p).
Proof.
  intros Hfs Hk Hp Hdefault. rewrite run_resolve_from.
  rewrite (run_from_first_denying _ _ _ _ _ _ _ k p st Hk Hp).
  unfold _on_unauthorized. rewrite Hfs.
  unfold invoke_on_unauthorized, bind, log. rewrite Hdefault.
  destruct (on_unauthorized_error p
              (add_event (EvOnUnauthorized (perm_id p))
                 (add_events (all_check_events m source info kwargs
                                (take (S k) (permissions self))) st)))
    as (error & Hrun & Hclass & Hmsg).
  exists error. by rewrite Hrun.
Qed.

Lemma denial_raises_error_of_first_denier_witness :
  exists error,
    fst (run_resolve Async (init [IsAuthenticated; IsAdmin; IsOwnerAsync] true false)
           plain_resolver PyNone info0 ∅ initial_state) = Raise (GraphQLErr error) /\
    err_class error = ec_name (error_class IsAdmin) /\
    err_message error = default EmptyString (message IsAdmin).
Proof.
  apply (denial_raises_error_of_first_denier Async
           (init [IsAuthenticated; IsAdmin; IsOwnerAsync] true false)
           plain_resolver PyNone info0 ∅ 1 IsAdmin initial_state).
  - reflexivity.
  - apply first_denying_sample.
  - reflexivity.
  - reflexivity.
Defined.

(** X3. When every permission passes, [resolve] returns what [next_]
    gives, value or exception, unchanged (an awaitable is handed on without
    being awaited), after calling each check once in order and [next_] once,
    whatever fail_silently says. *)
Theorem resolve_passes_next_result_through self next_ source info kwargs st :
  Forall (grants Sync source info kwargs) (permissions self) ->
  resolve self next_ source info kwargs st =
  (next_ source info kwargs,
   add_events (all_check_events Sync source info kwargs (permissions self) ++ [EvNext]) st).
Proof.
  intros Hall.
  change (resolve self next_ source info kwargs st)
    with (run_from Sync self source info kwargs next_ (permissions self) st).
  rewrite (run_from_granted Sync self source info kwargs next_ _ Hall st).
  cbn [run_from resolve_from]. rewrite call_next_run.
  by rewrite add_event_events, add_events_app.
Qed.

Lemma resolve_passes_next_result_through_witness :
  resolve (init [IsAuthenticated; IsMemberAsync] true true) async_resolver PyNone info0 ∅
    initial_state =
  (async_resolver PyNone info0 ∅,
   add_events
     (all_check_events Sync PyNone info0 ∅
        (permissions (init [IsAuthenticated; IsMemberAsync] true true)) ++ [EvNext])
     initial_state).
Proof.
  apply (resolve_passes_next_result_through
           (init [IsAuthenticated; IsMemberAsync] true true) async_resolver PyNone info0 ∅
           initial_state).
  apply Forall_cons. split.
  - exists (Plain (OBool true)). split; reflexivity.
  - apply Forall_cons. split; [|by apply Forall_nil].
    exists (Awaitable (Return (Plain (OBool true)))). split; reflexivity.
Defined.

(** X4. An exception out of a check (raised by [has_permission], or in
    the asynchronous resolver by awaiting its result) leaves the resolver as
    it is: no later check, no [on_unauthorized] and no [next_] is called,
    and fail_silently does not turn it into a sentinel. *)
Theorem check_exception_propagates m self next_ source info kwargs before p after e st :
  permissions self = before ++ p :: after ->
  Forall (grants m source info kwargs) before ->
  verdict m p source info kwargs = Raise e ->
  run_resolve m self next_ source info kwargs st =
  (Raise e, add_events (all_check_events m source info kwargs (before ++ [p])) st).
Proof.
  intros Hperms Hbefore He. rewrite run_resolve_from, Hperms.
  rewrite run_from_app_granted by done.
  rewrite (run_from_raising _ _ _ _ _ _ _ _ _ e He).
  by rewrite add_events_app, all_check_events_app, all_check_events_one.
Qed.

Lemma check_exception_propagates_witness :
  run_resolve Async (init [IsAuthenticated; Unfinished; IsAdmin] true true)
    plain_resolver PyNone info0 ∅ initial_state =
  (Raise NotImplementedError,
   add_events (all_check_events Async PyNone info0 ∅ ([IsAuthenticated] ++ [Unfinished]))
     initial_state).
Proof.
  apply (check_exception_propagates Async
           (init [IsAuthenticated; Unfinished; IsAdmin] true true)
           plain_resolver PyNone info0 ∅ [IsAuthenticated] Unfinished [IsAdmin]
           NotImplementedError initial_state).
  - reflexivity.
  - apply Forall_cons. split; [|by apply Forall_nil].
    exists (Plain (OBool true)). split; reflexivity.
  - reflexivity.
Defined.

(** X5. A permission class that leaves [has_permission] to the abstract
    base method makes every resolution that reaches it raise
    NotImplementedError, in both resolvers and also under fail_silently. *)
Theorem abstract_check_raises_not_implemented m self next_ source info kwargs
    before p after st :
  permissions self = before ++ p :: after ->
  Forall (grants m source info kwargs) before ->
  has_permission_def p = BasePermission_has_permission ->
  fst (run_resolve m self next_ source info kwargs st) = Raise NotImplementedError /\
  (EvNext ∉ all_check_events m source info kwargs (before ++ [p])) /\
  trace (snd (run_resolve m self next_ source info kwargs st)) =
  trace st ++ all_check_events m source info kwargs (before ++ [p]).
Proof.
  intros Hperms Hbefore Hp. rewrite run_resolve_from, Hperms.
  rewrite run_from_app_granted by done.
  assert (He : verdict m p source info kwargs = Raise NotImplementedError).
  { unfold verdict. rewrite Hp. by destruct m. }
  rewrite (run_from_raising _ _ _ _ _ _ _ _ _ _ He).
  rewrite add_events_app, all_check_events_app, all_check_events_one.
  split_and!; [done| |done].
  rewrite <- all_check_events_one, <- all_check_events_app.
  apply all_check_events_no_next.
Qed.

Lemma abstract_check_raises_not_implemented_witness :
  fst (run_resolve Sync (init [Unfinished] true true) plain_resolver PyNone info0 ∅
         initial_state) = Raise NotImplementedError /\
  (EvNext ∉ all_check_events Sync PyNone info0 ∅ ([] ++ [Unfinished])) /\
  trace (snd (run_resolve Sync (init [Unfinished] true true) plain_resolver PyNone info0 ∅
                initial_state)) =
  trace initial_state ++ all_check_events Sync PyNone info0 ∅ ([] ++ [Unfinished]).
Proof.
  apply (abstract_check_raises_not_implemented Sync (init [Unfinished] true true)
           plain_resolver PyNone info0 ∅ [] Unfinished [] initial_state).
  - reflexivity.
  - by apply Forall_nil.
  - reflexivity.
Defined.

(** X6. What comes after the first denial has no influence: replacing
    the permissions after index [k] by any others, and [next_] by any other
    resolver, gives the same result and the same trace. *)
Theorem nothing_after_first_denial_matters m self next_ next_' source info kwargs
    k others st :
  first_denying m source info kwargs (permissions self) k ->
  run_resolve m self next_ source info kwargs st =
  run_resolve m (set_permissions self (take (S k) (permissions self) ++ others)) next_'
    source info kwargs st.
Proof.
  intros Hk. destruct (first_denying_split _ _ _ _ _ _ Hk)
    as (p & Hp & Hsplit & Htake & Hgr & Hden).
  rewrite !run_resolve_from.
  rewrite (run_from_first_denying _ _ _ _ _ _ _ k p st Hk Hp).
  cbn [set_permissions permissions]. rewrite Htake, <- app_assoc. cbn [app].
  rewrite run_from_app_granted by done. rewrite run_from_denying by done.
  by rewrite add_events_app, all_check_events_app, all_check_events_one.
Qed.

Lemma nothing_after_first_denial_matters_witness :
  run_resolve Sync (init [IsAuthenticated; IsAdmin; IsOwnerAsync] true false)
    plain_resolver PyNone info0 ∅ initial_state =
  run_resolve Sync
    (set_permissions (init [IsAuthenticated; IsAdmin; IsOwnerAsync] true false)
       (take 2 (permissions (init [IsAuthenticated; IsAdmin; IsOwnerAsync] true false))
        ++ [Unfinished]))
    async_resolver PyNone info0 ∅ initial_state.
Proof.
  apply (nothing_after_first_denial_matters Sync
           (init [IsAuthenticated; IsAdmin; IsOwnerAsync] true false)
           plain_resolver async_resolver PyNone info0 ∅ 1 [Unfinished] initial_state).
  apply first_denying_sample.
Defined.

(** ** The two resolvers side by side *)

Lemma plain_check_same m source info kwargs p :
  returns_no_awaitable source info kwargs p ->
  verdict m p source info kwargs = verdict Sync p source info kwargs /\
  check_events m p source info kwargs = check_events Sync p source info kwargs.
Proof.
  intros Hplain. destruct m; [done|]. unfold verdict, check_events.
  unfold returns_no_awaitable in Hplain.
  destruct (call (has_permission_def p) source info kwargs) as [[o|r|g]|e]; try done.
  by destruct (Hplain r).
Qed.

(** X7. When no check returns an awaitable and some permission does not
    pass, [resolve] and [resolve_async] are the same computation: same
    result (sentinel, error of [on_unauthorized], or exception of the
    check) and same trace. *)
Theorem resolvers_agree_when_stopped self next_ source info kwargs st :
  Forall (returns_no_awaitable source info kwargs) (permissions self) ->
  ~ Forall (grants Sync source info kwargs) (permissions self) ->
  resolve self next_ source info kwargs st = resolve_async self next_ source info kwargs st.
Proof.
  change (resolve self next_ source info kwargs st)
    with (run_from Sync self source info kwargs next_ (permissions self) st).
  change (resolve_async self next_ source info kwargs st)
    with (run_from Async self source info kwargs next_ (permissions self) st).
  intros Hplain. revert st.
  induction Hplain as [|p rest Hp _ IH]; intros st Hstop.
  - destruct Hstop. constructor.
  - rewrite !run_from_cons. unfold bind. rewrite !check_run.
    destruct (plain_check_same Async source info kwargs p Hp) as [-> ->].
    destruct (verdict Sync p source info kwargs) as [v|e] eqn:Hv; [|done].
    destruct (truthy v) eqn:Htrue; [|done]. cbn [negb].
    apply IH. intros Hrest. apply Hstop. constructor; [|done]. by exists v.
Qed.

Lemma resolvers_agree_when_stopped_witness :
  resolve (init [IsAuthenticated; IsAdmin] true false) plain_resolver PyNone info0 ∅
    initial_state =
  resolve_async (init [IsAuthenticated; IsAdmin] true false) plain_resolver PyNone info0 ∅
    initial_state.
Proof.
  apply (resolvers_agree_when_stopped (init [IsAuthenticated; IsAdmin] true false)
           plain_resolver PyNone info0 ∅ initial_state).
  - apply Forall_cons. split; [intros r; discriminate|].
    apply Forall_cons. split; [intros r; discriminate|by apply Forall_nil].
  - intros Hall. apply Forall_cons in Hall as [_ Hall].
    apply Forall_cons in Hall as [(v & Hv & Htrue) _].
    cbn in Hv. injection Hv as <-. discriminate.
Defined.

(** ** What a resolution leaves alone *)

Lemma new_directives_app evs1 evs2 :
  new_directives (evs1 ++ evs2) = new_directives evs1 ++ new_directives evs2.
Proof. unfold new_directives. apply omap_app. Qed.

Lemma check_events_no_directive m p source info kwargs :
  new_directives (check_events m p source info kwargs) = [].
Proof.
  unfold check_events. destruct m; [done|].
  by destruct (call _ _ _ _) as [[o|r|g]|e].
Qed.

Lemma run_from_no_directive m self source info kwargs next_ perms :
  forall st,
    exists evs,
      snd (run_from m self source info kwargs next_ perms st) = add_events evs st /\
      new_directives evs = [].
Proof.
  induction perms as [|p rest IH]; intros st.
  - destruct m; cbn [run_from resolve_from resolve_async_from].
    + exists [EvNext]. by rewrite call_next_run.
    + unfold bind. rewrite call_next_run.
      destruct (next_ source info kwargs) as [[o|r|g]|e]; cbn;
        try (by exists [EvNext]).
      exists [EvNext; EvAwait (Awaitable r)]. split; [|done].
      unfold bind, log, lift. cbn. by rewrite !add_event_events, add_events_app.
  - rewrite run_from_cons. unfold bind. rewrite check_run.
    pose proof (check_events_no_directive m p source info kwargs) as Hclean.
    destruct (verdict m p source info kwargs) as [v|e].
    + destruct (negb (truthy v)).
      * destruct (_on_unauthorized_events self p
                    (add_events (check_events m p source info kwargs) st))
          as (evs & Hsnd & Hevs & _).
        exists (check_events m p source info kwargs ++ evs).
        rewrite Hsnd, add_events_app, new_directives_app, Hclean.
        split; [done|]. by destruct Hevs as [-> | ->].
      * destruct (IH (add_events (check_events m p source info kwargs) st))
          as (evs & Hsnd & Hevs).
        exists (check_events m p source info kwargs ++ evs).
        by rewrite Hsnd, add_events_app, new_directives_app, Hclean, Hevs.
    + by exists (check_events m p source info kwargs).
Qed.

(** X8. No resolution, in either resolver and whatever its outcome,
    constructs a directive or writes a permission's [_schema_directive]:
    the store after it is the store before it, and only the trace grows. *)
Theorem resolution_leaves_directives_alone m self next_ source info kwargs st :
  slots (snd (run_resolve m self next_ source info kwargs st)) = slots st /\
  next_object (snd (run_resolve m self next_ source info kwargs st)) = next_object st /\
  exists evs,
    trace (snd (run_resolve m self next_ source info kwargs st)) = trace st ++ evs /\
    new_directives evs = [].
Proof.
  rewrite run_resolve_from.
  destruct (run_from_no_directive m self source info kwargs next_ (permissions self) st)
    as (evs & -> & Hevs).
  split_and!; [done..|]. by exists evs.
Qed.

(** ** apply as a whole *)

Lemma permission_directives_total perms st :
  exists ds, permission_directives perms st =
             (Return ds, snd (permission_directives perms st)) /\
             Forall2 (fun p d => slots (snd (permission_directives perms st)) !! perm_id p
                                 = Some d) perms ds.
Proof.
  destruct (permission_directives_run perms st) as (ds & Hds & Hall).
  exists ds. split; [|done].
  destruct (permission_directives perms st) as [r st1]. cbn in Hds. by subst r.
Qed.

(** [apply] in two halves: the directives, then the fail_silently policy. *)
Lemma apply_run self field st :
  exists ds,
    permission_directives (permissions self) st =
      (Return ds, snd (permission_directives (permissions self) st)) /\
    Forall2 (fun p d => slots (snd (permission_directives (permissions self) st))
                          !! perm_id p = Some d) (permissions self) ds /\
    let field1 :=
      if use_directives self
      then set_directives field (append_deduped ds (directives field))
      else field in
    let st1 :=
      if use_directives self then snd (permission_directives (permissions self) st)
      else st in
    apply self field st =
    (fst (silent_policy self field1), snd (silent_policy self field1), field1, st1).
Proof.
  destruct (permission_directives_total (permissions self) st) as (ds & Hrun & Hall).
  exists ds. split_and!; [done..|]. unfold apply, silent_policy.
  destruct (use_directives self).
  - rewrite Hrun. cbn [snd].
    destruct (fail_silently self); [|done].
    by destruct (field_type (set_directives field _)) as [[| |]| |].
  - destruct (fail_silently self); [|done].
    by destruct (field_type field) as [[| |]| |].
Qed.

Lemma permission_directives_again perms ds st :
  Forall2 (fun p d => slots st !! perm_id p = Some d) perms ds ->
  permission_directives perms st = (Return ds, st).
Proof.
  induction 1 as [|p d perms ds Hp _ IH]; [done|].
  cbn [permission_directives]. unfold bind.
  rewrite (schema_directive_again p st d Hp). cbn [directive_truthy].
  by rewrite (schema_directive_again p st d Hp), IH.
Qed.

Lemma append_deduped_present ds : forall fs,
  (forall d, d ∈ ds -> directive_in d fs = true) -> append_deduped ds fs = fs.
Proof.
  induction ds as [|d rest IH]; intros fs Hin; [done|].
  cbn [append_deduped]. rewrite (Hin d) by apply list_elem_of_here.
  apply IH. intros d' Hd'. apply Hin. by apply list_elem_of_further.
Qed.

Lemma silent_policy_again self field :
  silent_policy (snd (silent_policy self field)) field = silent_policy self field.
Proof.
  unfold silent_policy. destruct (fail_silently self) eqn:Hfs; cbn [snd]; [|by rewrite Hfs].
  destruct (field_type field) as [[| |]| |]; cbn; rewrite ?Hfs; done.
Qed.

Lemma silent_policy_keeps self field :
  permissions (snd (silent_policy self field)) = permissions self /\
  use_directives (snd (silent_policy self field)) = use_directives self /\
  fail_silently (snd (silent_policy self field)) = fail_silently self /\
  supports_sync_cache (snd (silent_policy self field)) = supports_sync_cache self.
Proof.
  unfold silent_policy. destruct (fail_silently self) eqn:Hfs; [|by split_and!].
  destruct (field_type field) as [[| |]| |]; by split_and!.
Qed.

(** X9. [apply] is idempotent: applying the extension once more to the
    field it has just been applied to changes neither the field's
    directives, nor the extension, nor the stored directives, constructs
    nothing, and ends the same way (also when that is the
    PermissionFailSilentlyRequiresOptionalError). *)
Theorem apply_twice_is_apply_once self field st :
  let '(r, self1, field1, st1) := apply self field st in
  apply self1 field1 st1 = (r, self1, field1, st1).
Proof.
  destruct (apply_run self field st) as (ds & Hrun & Hall & Happly).
  cbv zeta in Happly. rewrite Happly. clear Happly.
  set (field1 := if use_directives self
                 then set_directives field (append_deduped ds (directives field))
                 else field).
  set (st1 := if use_directives self
              then snd (permission_directives (permissions self) st) else st).
  set (self1 := snd (silent_policy self field1)).
  destruct (silent_policy_keeps self field1) as (Hperms & Hud & _ & _).
  fold self1 in Hperms, Hud.
  destruct (apply_run self1 field1 st1) as (ds' & Hrun' & _ & Happly).
  cbv zeta in Happly. rewrite Happly. clear Happly.
  rewrite Hud, Hperms in *.
  assert (Hfield : (if use_directives self
                    then set_directives field1 (append_deduped ds' (directives field1))
                    else field1) = field1).
  { subst field1 st1. destruct (use_directives self); [|done].
    rewrite (permission_directives_again _ _ _ Hall) in Hrun'.
    injection Hrun' as <-.
    cbn [set_directives directives field_name field_type].
    rewrite (append_deduped_present ds (append_deduped ds (directives field)));
      [reflexivity|].
    intros d Hd. rewrite append_deduped_first_seen. by apply first_seen_covers. }
  assert (Hst : (if use_directives self
                 then snd (permission_directives (permissions self) st1)
                 else st1) = st1).
  { subst st1. destruct (use_directives self); [|done].
    by rewrite (permission_directives_again _ _ _ Hall). }
  rewrite Hfield, Hst. subst self1. by rewrite silent_policy_again.
Qed.

Lemma permission_directives_ok perms : forall st,
  state_ok st -> state_ok (snd (permission_directives perms st)).
Proof.
  induction perms as [|p rest IH]; intros st Hok; [done|].
  cbn [permission_directives]. unfold bind.
  destruct (schema_directive_returns p st) as (c & Hc & Hslot).
  pose proof (schema_directive_ok p st Hok) as Hok1.
  destruct (schema_directive p st) as [r st1]. cbn in Hc, Hslot, Hok1. subst r.
  cbn [directive_truthy]. rewrite (schema_directive_again p st1 c Hslot).
  specialize (IH st1 Hok1).
  by destruct (permission_directives rest st1) as [[ds|e] st2].
Qed.

(** X10. [apply] keeps the store of directives well formed: afterwards,
    as before, no directive object is stored on two permission instances
    and every identity in use is older than the next one to be given out. *)
Theorem apply_keeps_state_ok self field st :
  state_ok st ->
  let '(_, _, _, st') := apply self field st in state_ok st'.
Proof.
  intros Hok. destruct (apply_run self field st) as (ds & _ & _ & Happly).
  cbv zeta in Happly. rewrite Happly.
  destruct (use_directives self); [|done]. by apply permission_directives_ok.
Qed.

Lemma apply_keeps_state_ok_witness :
  let '(_, _, _, st') :=
    apply (init [IsAdmin; IsAuthenticated; IsAdmin] true false)
      (secret_field (StrawberryNamed "str")) initial_state in
  state_ok st'.
Proof.
  apply (apply_keeps_state_ok (init [IsAdmin; IsAuthenticated; IsAdmin] true false)
           (secret_field (StrawberryNamed "str")) initial_state).
  apply initial_state_ok.
Defined.

(** X11. Set-up and request together: once [apply] has completed on an
    extension built with fail_silently, every resolution in which a
    permission denies returns the empty list when the field's type is a list
    or an optional of a list, and [None] for any other optional. *)
Theorem applied_extension_fails_silently perms ud field st self field' st'
    m next_ source info kwargs k st_req :
  apply (init perms ud true) field st = (Return tt, self, field', st') ->
  first_denying m source info kwargs perms k ->
  fst (run_resolve m self next_ source info kwargs st_req) =
  Return (if is_list (field_type field) || is_optional_of_list (field_type field)
          then PyEmptyList else PyNone).
Proof.
  intros Happly Hk.
  destruct (apply_run (init perms ud true) field st) as (ds & _ & _ & Hrun).
  cbv zeta in Hrun. rewrite Hrun in Happly. clear Hrun.
  set (field1 := if use_directives (init perms ud true)
                 then set_directives field (append_deduped ds (directives field))
                 else field) in Happly.
  assert (Htype : field_type field1 = field_type field).
  { subst field1. by destruct (use_directives _). }
  injection Happly as Hr Hself _ _.
  assert (Hshape : permissions self = perms /\ fail_silently self = true /\
                   return_empty_list self =
                   is_list (field_type field) || is_optional_of_list (field_type field)).
  { subst self. unfold silent_policy in Hr |- *. cbn [init fail_silently] in Hr |- *.
    rewrite Htype in Hr |- *.
    by destruct (field_type field) as [[| |]| |]. }
  destruct Hshape as (Hperms & Hfs & Hrel).
  rewrite run_resolve_from, Hperms.
  destruct (run_from_denied m self source info kwargs next_ perms k st_req Hk)
    as (evs & _ & _ & _ & Hsilent).
  rewrite (Hsilent Hfs). unfold sentinel. by rewrite Hrel.
Qed.

Lemma applied_extension_fails_silently_witness :
  fst (run_resolve Async
         (set_return_empty_list (init [IsAuthenticated; IsAdmin; IsOwnerAsync] false true) true)
         plain_resolver PyNone info0 ∅ initial_state) =
  Return (if is_list (field_type (secret_field
                                    (StrawberryOptional (StrawberryList (StrawberryNamed "str")))))
             || is_optional_of_list
                  (field_type (secret_field
                                 (StrawberryOptional (StrawberryList (StrawberryNamed "str")))))
          then PyEmptyList else PyNone).
Proof.
  apply (applied_extension_fails_silently [IsAuthenticated; IsAdmin; IsOwnerAsync] false
           (secret_field (StrawberryOptional (StrawberryList (StrawberryNamed "str"))))
           initial_state
           (set_return_empty_list (init [IsAuthenticated; IsAdmin; IsOwnerAsync] false true) true)
           (secret_field (StrawberryOptional (StrawberryList (StrawberryNamed "str"))))
           initial_state Async plain_resolver PyNone info0 ∅ 1 initial_state).
  - reflexivity.
  - apply first_denying_sample.
Defined.

(** X12. Without fail_silently, [apply] never raises, whatever the type
    of the field, and leaves the extension as it was; the field keeps its
    name and type. *)
Theorem apply_without_fail_silently_completes self field st :
  fail_silently self = false ->
  exists field' st',
    apply self field st = (Return tt, self, field', st') /\
    field_name field' = field_name field /\
    field_type field' = field_type field.
Proof.
  intros Hfs. destruct (apply_run self field st) as (ds & _ & _ & Happly).
  cbv zeta in Happly. rewrite Happly. unfold silent_policy. rewrite Hfs. cbn [fst snd].
  eexists _, _. split; [reflexivity|]. by destruct (use_directives self).
Qed.

Lemma apply_without_fail_silently_completes_witness :
  exists field' st',
    apply (init [IsAdmin] true false) (secret_field (StrawberryNamed "str")) initial_state =
    (Return tt, init [IsAdmin] true false, field', st') /\
    field_name field' = field_name (secret_field (StrawberryNamed "str")) /\
    field_type field' = field_type (secret_field (StrawberryNamed "str")).
Proof.
  apply (apply_without_fail_silently_completes (init [IsAdmin] true false)
           (secret_field (StrawberryNamed "str")) initial_state).
  reflexivity.
Defined.

Lemma schema_directive_events p st :
  exists evs,
    trace (snd (schema_directive p st)) = trace st ++ evs /\
    Forall (fun e => is_new_directive e = true) evs /\
    length evs <= 1.
Proof.
  rewrite schema_directive_run. destruct (slots st !! perm_id p).
  - exists []. rewrite app_nil_r. split_and!; [done|constructor|cbn; lia].
  - eexists [_]. split_and!; [reflexivity|by repeat constructor|cbn; lia].
Qed.

Lemma permission_directives_events perms : forall st,
  exists evs,
    trace (snd (permission_directives perms st)) = trace st ++ evs /\
    Forall (fun e => is_new_directive e = true) evs /\
    length evs <= length perms.
Proof.
  induction perms as [|p rest IH]; intros st.
  - exists []. rewrite app_nil_r. split_and!; [done|constructor|done].
  - cbn [permission_directives]. unfold bind.
    destruct (schema_directive_returns p st) as (c & Hc & Hslot).
    destruct (schema_directive_events p st) as (evs1 & Htrace1 & Hnew1 & Hlen1).
    destruct (schema_directive p st) as [r st1]. cbn in Hc, Hslot, Htrace1. subst r.
    cbn [directive_truthy]. rewrite (schema_directive_again p st1 c Hslot).
    destruct (IH st1) as (evs2 & Htrace2 & Hnew2 & Hlen2).
    exists (evs1 ++ evs2). split_and!.
    + destruct (permission_directives rest st1) as [[ds|e] st2];
        cbn in Htrace2 |- *; by rewrite Htrace2, Htrace1, app_assoc.
    + by apply Forall_app.
    + rewrite length_app. cbn. lia.
Qed.

(** X13. [apply] runs no user code: it calls no [has_permission], no
    [on_unauthorized] and no resolver. All it records is the construction
    of directive objects, at most one for each listed permission; and with
    use_directives off it leaves the field and the store untouched. *)
Theorem apply_only_constructs_directives self field st :
  let '(_, _, field', st') := apply self field st in
  (exists evs,
     trace st' = trace st ++ evs /\
     Forall (fun e => is_new_directive e = true) evs /\
     length evs <= length (permissions self)) /\
  (use_directives self = false -> field' = field /\ st' = st).
Proof.
  destruct (apply_run self field st) as (ds & _ & _ & Happly).
  cbv zeta in Happly. rewrite Happly.
  destruct (use_directives self).
  - split; [|done]. apply permission_directives_events.
  - split; [|done]. exists []. rewrite app_nil_r. split_and!; [done|constructor|cbn; lia].
Qed.

Lemma permission_directives_cons_fresh p rest st :
  slots st !! perm_id p = None ->
  permission_directives (p :: rest) st =
  let d := AutoDirective (next_object st) (class_name p) in
  match permission_directives rest
          {| slots := <[perm_id p := d]> (slots st);
             next_object := Pos.succ (next_object st);
             trace := trace st ++ [EvNewDirective (next_object st)] |} with
  | (Return ds, st') => (Return (d :: ds), st')
  | (Raise e, st') => (Raise e, st')
  end.
Proof.
  intros Hslot. cbn [permission_directives]. unfold bind at 1.
  rewrite schema_directive_run, Hslot. cbv zeta. cbn [directive_truthy].
  unfold bind at 1. rewrite schema_directive_again with (d := AutoDirective (next_object st) (class_name p))
    by apply lookup_insert_eq.
  unfold bind, ret. by destruct (permission_directives rest _) as [[ds|e] st'].
Qed.

Lemma directive_in_fresh (d : directive) (fs : list directive) (n : positive) :
  Forall (fun d => (dir_id d < n)%positive) fs ->
  (n <= dir_id d)%positive ->
  directive_in d fs = false.
Proof.
  intros Hfs Hd. apply not_true_iff_false. rewrite directive_in_ids.
  intros (d' & Heq & Hin)%list_elem_of_fmap.
  rewrite Forall_forall in Hfs. apply Hfs in Hin. lia.
Qed.

(** X14. Directives are kept per permission instance, not per class: two
    different instances without a directive yet, listed on one extension,
    put two entries on the field, in declared order, also when both are of
    the same class and so carry the same name. *)
Theorem two_instances_give_two_directives self field st p q :
  permissions self = [p; q] ->
  use_directives self = true ->
  perm_id p <> perm_id q ->
  slots st !! perm_id p = None ->
  slots st !! perm_id q = None ->
  Forall (fun d => (dir_id d < next_object st)%positive) (directives field) ->
  let '(_, _, field', _) := apply self field st in
  directives field' =
  directives field ++ [AutoDirective (next_object st) (class_name p);
                       AutoDirective (Pos.succ (next_object st)) (class_name q)].
Proof.
  intros Hperms Hud Hne Hp Hq Hold.
  destruct (apply_run self field st) as (ds & Hrun & _ & Happly).
  cbv zeta in Happly. rewrite Happly. clear Happly. rewrite Hud.
  cbn [set_directives directives].
  rewrite Hperms in Hrun.
  rewrite (permission_directives_cons_fresh p [q] st Hp) in Hrun. cbv zeta in Hrun.
  rewrite permission_directives_cons_fresh in Hrun
    by (cbn [slots]; by rewrite lookup_insert_ne).
  cbv zeta in Hrun. cbn in Hrun. injection Hrun as <-.
  rewrite append_deduped_first_seen. f_equal. cbn [first_seen].
  rewrite (directive_in_fresh _ _ (next_object st)) by (done || (cbn; lia)).
  rewrite directive_in_app, (directive_in_fresh _ _ (next_object st))
    by (done || (cbn; lia)).
  cbn. unfold directive_is. cbn.
  destruct (Pos.eqb_spec (Pos.succ (next_object st)) (next_object st)); [lia|done].
Qed.

Lemma two_instances_give_two_directives_witness :
  let '(_, _, field', _) :=
    apply (init [IsAdmin; IsAuthenticated] true false) (secret_field (StrawberryNamed "str"))
      initial_state in
  directives field' =
  directives (secret_field (StrawberryNamed "str"))
  ++ [AutoDirective (next_object initial_state) (class_name IsAdmin);
      AutoDirective (Pos.succ (next_object initial_state)) (class_name IsAuthenticated)].
Proof.
  apply (two_instances_give_two_directives (init [IsAdmin; IsAuthenticated] true false)
           (secret_field (StrawberryNamed "str")) initial_state IsAdmin IsAuthenticated).
  - reflexivity.
  - reflexivity.
  - discriminate.
  - reflexivity.
  - reflexivity.
  - by apply Forall_nil.
Defined.

(** ** Edges of the default on_unauthorized *)

(** When [error_extensions] is unset or an empty dictionary, the
    default [on_unauthorized] raises the error exactly as its class
    constructed it: the extensions are not touched, and an [extensions]
    attribute that is [None] stays [None]. *)
Theorem on_unauthorized_without_extensions self st :
  dict_truthy (error_extensions self) = false ->
  on_unauthorized self st =
  (Raise (GraphQLErr (instantiate (error_class self) (default EmptyString (message self)))),
   st).
Proof.
  intros Hext. unfold on_unauthorized. by rewrite message_or_empty_default, Hext.
Qed.

Lemma on_unauthorized_without_extensions_witness :
  on_unauthorized IsAuthenticated initial_state =
  (Raise (GraphQLErr (instantiate (error_class IsAuthenticated)
                        (default EmptyString (message IsAuthenticated)))),
   initial_state).
Proof.
  apply (on_unauthorized_without_extensions IsAuthenticated initial_state).
  reflexivity.
Defined.

(** X15. When the error class gives the error no extensions ([None] or
    an empty dictionary) and the permission has some, the raised error's
    extensions are a dictionary with exactly the permission's entries. *)
Theorem on_unauthorized_installs_extensions self st ext :
  error_extensions self = Some ext ->
  ext <> ∅ ->
  dict_truthy (ec_extensions (error_class self) (default EmptyString (message self))) = false ->
  exists error,
    on_unauthorized self st = (Raise (GraphQLErr error), st) /\
    extensions error = Some ext.
Proof.
  intros Hext Hne Hnone. unfold on_unauthorized. rewrite message_or_empty_default, Hext.
  assert (Htruthy : dict_truthy (Some ext) = true).
  { cbn. apply negb_true_iff, bool_decide_eq_false. done. }
  rewrite Htruthy. cbn [instantiate extensions]. rewrite Hnone. cbn [negb extensions].
  eexists. split; [reflexivity|]. cbn. unfold dict_update. by rewrite (right_id_L ∅ (∪)).
Qed.

Lemma on_unauthorized_installs_extensions_witness :
  exists error,
    on_unauthorized IsAdmin initial_state = (Raise (GraphQLErr error), initial_state) /\
    extensions error = Some {[ "code" := OStr "FORBIDDEN" ]}.
Proof.
  apply (on_unauthorized_installs_extensions IsAdmin initial_state
           {[ "code" := OStr "FORBIDDEN" ]}).
  - reflexivity.
  - intros H. apply (f_equal (fun m : gmap string pyobj => m !! "code")) in H.
    vm_compute in H. discriminate.
  - reflexivity.
Defined.

(** ** supports_sync of a longer list *)

(** X16. [supports_sync] of a list of permissions put together from two
    lists is the conjunction of the two: adding permissions with
    synchronous checks never changes it, and one asynchronous check
    anywhere turns it off. *)
Theorem supports_sync_of_concatenation perms1 perms2 ud fs :
  fst (supports_sync (init (perms1 ++ perms2) ud fs)) =
  fst (supports_sync (init perms1 ud fs)) && fst (supports_sync (init perms2 ud fs)).
Proof.
  cbn [supports_sync init supports_sync_cache fst]. unfold supports_sync_body.
  cbn [permissions init]. rewrite omap_app, length_app.
  by destruct (length (omap _ perms1)), (length (omap _ perms2)).
Qed.
